(** * fix_email_parsers.py : a shallow embedding of the three fix routines

    The script rewrites Rust sources of the email parsers with a fixed
    sequence of [re.sub] calls and [str.replace] calls.  Text is a Python
    [str], i.e. a list of code points, modelled as [list N]. *)

From Stdlib Require Import String Ascii List NArith Arith Lia Bool.
Import ListNotations.
Open Scope N_scope.

(** ** Text *)

Definition text := list N.

(** Python source literals are written with a back-quote standing for the
    double quote character (code point 34); no back-quote occurs in any
    literal of the script. *)
Definition q (s : string) : text :=
  map (fun a => if Ascii.eqb a "`"%char then 34 else N_of_ascii a)
      (list_ascii_of_string s).

(** [str.isspace] on a code point: the class matched by [\s] in a [str]
    pattern (Py_UNICODE_ISSPACE). *)
Definition is_space (c : N) : bool :=
  ((9 <=? c) && (c <=? 13)) || ((28 <=? c) && (c <=? 32)) || (c =? 133)
  || (c =? 160) || (c =? 5760) || ((8192 <=? c) && (c <=? 8202))
  || (c =? 8232) || (c =? 8233) || (c =? 8239) || (c =? 8287) || (c =? 12288).

(** ** Compiled patterns

    The patterns of the script use literal characters, escaped
    punctuation ([\.], [\(], [\{], ...), the class [\s+] and capture
    groups.  [TSpaceStar] never comes out of the compiler: it is the state
    of a [\s+] that has already consumed one character. *)
Inductive token :=
| TChar (c : N)
| TSpace
| TSpaceStar
| TOpen
| TClose.

Inductive re_error :=
| MissingParen       (* "missing ), unterminated subpattern" *)
| UnbalancedParen    (* "unbalanced parenthesis" *)
| BadEscape          (* "bad escape (end of pattern)" *)
| Unmodelled.        (* a construct outside the subset used by the script *)

Definition is_alnum (c : N) : bool :=
  ((48 <=? c) && (c <=? 57)) || ((65 <=? c) && (c <=? 90))
  || ((97 <=? c) && (c <=? 122)).

(** Unescaped metacharacters; an unescaped [}] is a literal in Python. *)
Definition is_meta (c : N) : bool :=
  existsb (N.eqb c) [46; 94; 36; 42; 43; 63; 91; 93; 124; 123].

(** [sre_parse] restricted to that subset; [depth] counts open groups. *)
Fixpoint compile_aux (s : text) (depth : nat) : sum re_error (list token) :=
  let cons_tok t r := match r with inl e => inl e | inr ts => inr (t :: ts) end in
  match s with
  | [] => if Nat.eqb depth 0 then inr [] else inl MissingParen
  | c :: s1 =>
    if c =? 92 then
      match s1 with
      | [] => inl BadEscape
      | d :: s2 =>
        if d =? 115 then
          match s2 with
          | e :: s3 => if e =? 43 then cons_tok TSpace (compile_aux s3 depth)
                       else inl Unmodelled
          | [] => inl Unmodelled
          end
        else if is_alnum d then inl Unmodelled
        else cons_tok (TChar d) (compile_aux s2 depth)
      end
    else if c =? 40 then cons_tok TOpen (compile_aux s1 (S depth))
    else if c =? 41 then
      match depth with
      | O => inl UnbalancedParen
      | S d => cons_tok TClose (compile_aux s1 d)
      end
    else if is_meta c then inl Unmodelled
    else cons_tok (TChar c) (compile_aux s1 depth)
  end.

Definition compile (p : text) : sum re_error (list token) := compile_aux p 0.

(** ** Matching: [sre] backtracking, [\s+] greedy

    [match_toks ts s] is the first match found by Python's matcher at the
    start of [s]: the text consumed by each token, and the rest of [s]. *)
Fixpoint space_run (s : text) : nat :=
  match s with
  | c :: s' => if is_space c then S (space_run s') else O
  | [] => O
  end.

(** The greedy loop of a [\s+]: try [k], [k-1], ..., [1] characters of
    the run, continuing with [m] (the rest of the pattern) after them. *)
Fixpoint try_run (m : text -> option (list text * text)) (s : text) (k : nat)
  : option (list text * text) :=
  match k with
  | O => None
  | S k' =>
    match m (skipn k s) with
    | Some (segs, r) => Some (firstn k s :: segs, r)
    | None => try_run m s k'
    end
  end.

Fixpoint match_toks (ts : list token) (s : text)
  : option (list text * text) :=
  match ts with
  | [] => Some ([], s)
  | TChar c :: ts' =>
    match s with
    | d :: s' =>
      if c =? d then
        match match_toks ts' s' with
        | Some (segs, r) => Some ([c] :: segs, r)
        | None => None
        end
      else None
    | [] => None
    end
  | TSpace :: ts' => try_run (match_toks ts') s (space_run s)
  | TSpaceStar :: ts' =>
    match try_run (match_toks ts') s (space_run s) with
    | Some res => Some res
    | None =>
      match match_toks ts' s with
      | Some (segs, r) => Some ([] :: segs, r)
      | None => None
      end
    end
  | TOpen :: ts' | TClose :: ts' =>
    match match_toks ts' s with
    | Some (segs, r) => Some ([] :: segs, r)
    | None => None
    end
  end.

(** Text of capture group [k] (numbered from 1; the script's groups are
    not nested): the segments between the k-th [TOpen] and the next
    [TClose]. *)
Fixpoint grp_body (ts : list token) (segs : list text) : text :=
  match ts, segs with
  | TClose :: _, _ => []
  | _ :: ts', sg :: segs' => sg ++ grp_body ts' segs'
  | _, _ => []
  end.

Fixpoint grp (k : nat) (ts : list token) (segs : list text) : text :=
  match ts, segs with
  | TOpen :: ts', _ :: segs' =>
    match k with
    | O => []
    | S O => grp_body ts' segs'
    | S k' => grp k' ts' segs'
    end
  | _ :: ts', _ :: segs' => grp k ts' segs'
  | _, _ => []
  end.

(** Replacement template expansion of [re.sub]: [\n], [\t], [\r], [\f],
    [\v], [\a], [\b], [\\], [\0] and single-digit group references; other
    escapes are kept as written (escapes of other ASCII letters, an error
    in Python, do not occur in the script's templates). *)
Fixpoint expand (g : nat -> text) (t : text) : text :=
  match t with
  | [] => []
  | c :: t1 =>
    if c =? 92 then
      match t1 with
      | [] => [92]
      | d :: t2 =>
        if d =? 110 then 10 :: expand g t2
        else if d =? 116 then 9 :: expand g t2
        else if d =? 114 then 13 :: expand g t2
        else if d =? 102 then 12 :: expand g t2
        else if d =? 118 then 11 :: expand g t2
        else if d =? 97 then 7 :: expand g t2
        else if d =? 98 then 8 :: expand g t2
        else if d =? 92 then 92 :: expand g t2
        else if d =? 48 then 0 :: expand g t2
        else if (48 <=? d) && (d <=? 57) then g (N.to_nat (d - 48)) ++ expand g t2
        else 92 :: d :: expand g t2
      end
    else c :: expand g t1
  end.

(** ** [re.subn] and [re.sub]

    Scan from the left; where a match starts, emit the expanded template
    and resume after the match, otherwise copy one character.  The fuel
    [S (length s)] is enough because the script's patterns never match the
    empty text ([header_nonnull] and its siblings below).  [re.sub] is the
    text component of [re.subn]. *)
Fixpoint subn_fuel (fuel : nat) (ts : list token) (rep : list text -> text)
  (s : text) : text * nat :=
  match fuel with
  | O => (s, O)
  | S f =>
    match match_toks ts s with
    | Some (segs, r) =>
      let (o, n) := subn_fuel f ts rep r in (rep segs ++ o, S n)
    | None =>
      match s with
      | [] => ([], O)
      | c :: s' => let (o, n) := subn_fuel f ts rep s' in (c :: o, n)
      end
    end
  end.

Definition subn (ts : list token) (rep : list text -> text) (s : text) :=
  subn_fuel (S (length s)) ts rep s.

Definition sub (ts : list token) (rep : list text -> text) (s : text) : text :=
  fst (subn ts rep s).

(** The replacement function of a template: groups of the match. *)
Definition rep_of (ts : list token) (tmpl : text) (segs : list text) : text :=
  expand (fun k => grp k ts segs) tmpl.

(** [re.sub(pattern, repl, string)]: the pattern is compiled by the call. *)
Definition re_sub (p tmpl s : text) : sum re_error text :=
  match compile p with
  | inl e => inl e
  | inr ts => inr (sub ts (rep_of ts tmpl) s)
  end.

(** ** [str.replace(old, new)]: leftmost, non-overlapping, all occurrences;
    [str_replacen] also counts them ([str.count]).  [old] is never empty in
    the script. *)
Fixpoint prefixb (u s : text) : bool :=
  match u, s with
  | [], _ => true
  | a :: u', b :: s' => (a =? b) && prefixb u' s'
  | _ :: _, [] => false
  end.

Fixpoint str_replacen_fuel (fuel : nat) (old new s : text) : text * nat :=
  match fuel with
  | O => (s, O)
  | S f =>
    if prefixb old s then
      let (o, n) := str_replacen_fuel f old new (skipn (length old) s) in
      (new ++ o, S n)
    else
      match s with
      | [] => ([], O)
      | c :: s' => let (o, n) := str_replacen_fuel f old new s' in (c :: o, n)
      end
  end.

Definition str_replacen (old new s : text) :=
  str_replacen_fuel (S (length s)) old new s.

Definition str_replace (old new s : text) : text := fst (str_replacen old new s).

(** ** The statements of a fix routine between [f.read()] and [f.write()]

    Each statement is a [re.sub] (compiled when it runs) or a
    [content.replace]; the routine runs them in order on [content].  The
    trace records what each statement did. *)
Inductive step :=
| ReSub (pat tmpl : text)
| Replace (old new : text).

Inductive event :=
| EvCompile (pat : text)
| EvSub (pat : text)
| EvRaise (e : re_error)
| EvReplace (old : text).

(** A writer and error monad: the events so far, then an exception or a
    value. *)
Definition M (A : Type) : Type := (list event * sum re_error A)%type.

Definition ret {A} (a : A) : M A := ([], inr a).

Definition bind {A B} (m : M A) (k : A -> M B) : M B :=
  match m with
  | (ev, inl e) => (ev, inl e)
  | (ev, inr a) => let (ev', r) := k a in (ev ++ ev', r)
  end.

Notation "x <- m ;; k" := (bind m (fun x => k))
  (at level 61, m at next level, right associativity).

Definition run_step (st : step) (content : text) : M text :=
  match st with
  | ReSub p tmpl =>
    match compile p with
    | inl e => ([EvCompile p; EvRaise e], inl e)
    | inr ts => ([EvCompile p; EvSub p], inr (sub ts (rep_of ts tmpl) content))
    end
  | Replace old new => ([EvReplace old], inr (str_replace old new content))
  end.

Fixpoint run_steps (sts : list step) (content : text) : M text :=
  match sts with
  | [] => ret content
  | st :: sts' => content <- run_step st content ;; run_steps sts' content
  end.

(** ** The literals of the script (Python string values) *)
Definition mbox_header_pat : text := q
"(fn format_email_header\(&self, label: &str, value: &str\) -> TextRun \{\s+TextRun \{\s+text: format!\(`\{}: \{}\}\\n`, label, value\),\s+style: TextStyle \{\s+bold: label == `From` \|\| label == `To` \|\| label == `Subject`,\s+\.\.Default::default\(\)\s+\},)\s+(\})".

Definition mbox_header_repl : text := q
"\1\n            bounds: None,\n            char_positions: None,\n        \2".

Definition mbox_newline_pat : text := q
"text_runs\.push\(TextRun \{\s+text: `\\n`\.to_string\(\),\s+style: Default::default\(\),\s+\}\);".

Definition mbox_newline_repl : text := q
"text_runs.push(TextRun {
            text: `\n`.to_string(),
            style: Default::default(),
            bounds: None,
            char_positions: None,
        });".

Definition mbox_body_pat : text := q
"text_runs\.push\(TextRun \{\s+text: body_text,\s+style: Default::default\(\),\s+\}\);".

Definition mbox_body_repl : text := q
"text_runs.push(TextRun {
            text: body_text,
            style: Default::default(),
            bounds: None,
            char_positions: None,
        });".

Definition mbox_block_pat : text := q
"let text_block = TextBlock \{\s+runs: text_runs,\s+bounds: None,\s+\};".

Definition mbox_block_repl : text := q
"let text_block = TextBlock {
                            runs: text_runs,
                            bounds: prism_core::document::Rect {
                                x: 0.0,
                                y: 0.0,
                                width: Dimensions::LETTER.width,
                                height: Dimensions::LETTER.height,
                            },
                            paragraph_style: None,
                        };".

Definition mbox_addr_old1 : text := q
"addr.address.as_ref().unwrap_or(&String::new())".

Definition mbox_addr_new : text := q
"addr.address.as_ref().map(|a| a.to_string()).unwrap_or_default()".

Definition mbox_addr_old2 : text := q
"addr.address.clone().unwrap_or_default()".

Definition mbox_addr_new2 : text := q
"addr.address.as_ref().map(|a| a.to_string()).unwrap_or_default()".

Definition msg_import_old : text := q
"use tracing::{debug, info, warn};".

Definition msg_import_new : text := q
"use tracing::{debug, info};".

Definition msg_header_pat : text := q
"(fn format_email_header\(&self, label: &str, value: &str\) -> TextRun \{\s+TextRun \{\s+text: format!\(`\{}: \{}\}\\n`, label, value\),\s+style: TextStyle \{\s+bold: label == `From` \|\| label == `To` \|\| label == `Subject`,\s+\.\.Default::default\(\)\s+\},)\s+(\})".

Definition msg_header_repl : text := q
"\1\n            bounds: None,\n            char_positions: None,\n        \2".

Definition msg_newline_pat : text := q
"text_runs\.push\(TextRun \{\s+text: `\\n`\.to_string\(\),\s+style: Default::default\(\),\s+\}\);".

Definition msg_newline_repl : text := q
"text_runs.push(TextRun {
            text: `\n`.to_string(),
            style: Default::default(),
            bounds: None,
            char_positions: None,
        });".

Definition msg_body_pat : text := q
"text_runs\.push\(TextRun \{\s+text: body_text\.clone\(\),\s+style: Default::default\(\),\s+\}\);".

Definition msg_body_repl : text := q
"text_runs.push(TextRun {
            text: body_text.clone(),
            style: Default::default(),
            bounds: None,
            char_positions: None,
        });".

Definition msg_block_pat : text := q
"let text_block = TextBlock \{\s+runs: text_runs,\s+bounds: None,\s+\};".

Definition msg_block_repl : text := q
"let text_block = TextBlock {
            runs: text_runs,
            bounds: prism_core::document::Rect {
                x: 0.0,
                y: 0.0,
                width: Dimensions::LETTER.width,
                height: Dimensions::LETTER.height,
            },
            paragraph_style: None,
        };".

Definition vcf_field_pat : text := q
"(fn format_field\(&self, label: &str, value: &str, bold: bool\) -> TextRun \{\s+TextRun \{\s+text: format!\(`\{}: \{}\}\\n`, label, value\),\s+style: TextStyle \{\s+bold,\s+\.\.Default::default\(\)\s+\},)\s+(\})".

Definition vcf_field_repl : text := q
"\1\n            bounds: None,\n            char_positions: None,\n        \2".

Definition vcf_note_pat : text := q
"text_runs\.push\(TextRun \{\s+text: `\\nNote:\\n`\.to_string\(\),\s+style: TextStyle \{\s+bold: true,\s+\.\.Default::default\(\)\s+\},\s+\}\);".

Definition vcf_note_repl : text := q
"text_runs.push(TextRun {
                text: `\nNote:\n`.to_string(),
                style: TextStyle {
                    bold: true,
                    ..Default::default()
                },
                bounds: None,
                char_positions: None,
            });".

Definition vcf_notebody_pat : text := q
"text_runs\.push\(TextRun \{\s+text: format!\(`\{}\}\\n`, note\),\s+style: Default::default\(\),\s+\}\);".

Definition vcf_notebody_repl : text := q
"text_runs.push(TextRun {
                text: format!(`{}\n`, note),
                style: Default::default(),
                bounds: None,
                char_positions: None,
            });".

Definition vcf_block_pat : text := q
"let text_block = TextBlock \{\s+runs: text_runs,\s+bounds: None,\s+\};".

Definition vcf_block_repl : text := q
"let text_block = TextBlock {
                runs: text_runs,
                bounds: prism_core::document::Rect {
                    x: 0.0,
                    y: 0.0,
                    width: Dimensions::LETTER.width,
                    height: Dimensions::LETTER.height,
                },
                paragraph_style: None,
            };".

Definition vcf_filter_pat : text := q
"\.filter\(\|s\| !s\.is_empty\(\)\)".

Definition vcf_filter_repl : text := q
".filter(|s: &&str| !s.is_empty())".

(** ** The three routines' statement lists, in source order *)
Definition mbox_steps : list step :=
  [ ReSub mbox_header_pat mbox_header_repl;
    ReSub mbox_newline_pat mbox_newline_repl;
    ReSub mbox_body_pat mbox_body_repl;
    ReSub mbox_block_pat mbox_block_repl;
    Replace mbox_addr_old1 mbox_addr_new;
    Replace mbox_addr_old2 mbox_addr_new2 ].

Definition msg_steps : list step :=
  [ Replace msg_import_old msg_import_new;
    ReSub msg_header_pat msg_header_repl;
    ReSub msg_newline_pat msg_newline_repl;
    ReSub msg_body_pat msg_body_repl;
    ReSub msg_block_pat msg_block_repl ].

Definition vcf_steps : list step :=
  [ ReSub vcf_field_pat vcf_field_repl;
    ReSub vcf_note_pat vcf_note_repl;
    ReSub vcf_notebody_pat vcf_notebody_repl;
    ReSub vcf_block_pat vcf_block_repl;
    ReSub vcf_filter_pat vcf_filter_repl ].

(** ** The language of a compiled pattern *)

Inductive inL : list token -> text -> Prop :=
| inL_nil : inL [] []
| inL_char c ts w : inL ts w -> inL (TChar c :: ts) (c :: w)
| inL_space u ts w :
    u <> [] -> Forall (fun c => is_space c = true) u -> inL ts w ->
    inL (TSpace :: ts) (u ++ w)
| inL_star u ts w :
    Forall (fun c => is_space c = true) u -> inL ts w ->
    inL (TSpaceStar :: ts) (u ++ w)
| inL_open ts w : inL ts w -> inL (TOpen :: ts) w
| inL_close ts w : inL ts w -> inL (TClose :: ts) w.

(** What one token consumed in a match. *)
Inductive seg_ok : token -> text -> Prop :=
| seg_char c : seg_ok (TChar c) [c]
| seg_space u :
    u <> [] -> Forall (fun c => is_space c = true) u -> seg_ok TSpace u
| seg_star u : Forall (fun c => is_space c = true) u -> seg_ok TSpaceStar u
| seg_open : seg_ok TOpen []
| seg_close : seg_ok TClose [].

(** [P] occurs nowhere in [u]. *)
Definition NoOcc (P : list token) (u : text) : Prop :=
  forall a w b, u = a ++ w ++ b -> ~ inL P w.

(** [P] has no occurrence in [x ++ s] that starts inside [x]. *)
Definition NoOccBefore (P : list token) (x s : text) : Prop :=
  forall a w b, x ++ s = a ++ w ++ b -> (length a < length x)%nat -> ~ inL P w.

(** ** A derivative automaton on patterns, to decide where a pattern can
    overlap a fixed text *)

Fixpoint close (ts : list token) : list (list token) :=
  match ts with
  | TOpen :: r | TClose :: r => close r
  | TSpaceStar :: r => (TSpaceStar :: r) :: close r
  | _ => [ts]
  end.

Definition step1 (c : N) (ts : list token) : list (list token) :=
  match ts with
  | TChar d :: r => if c =? d then [r] else []
  | TSpace :: r | TSpaceStar :: r => if is_space c then [TSpaceStar :: r] else []
  | _ => []
  end.

Definition deriv (c : N) (S : list (list token)) : list (list token) :=
  flat_map (step1 c) (flat_map close S).

Definition is_nil (ts : list token) : bool :=
  match ts with [] => true | _ => false end.

Definition nullable (S : list (list token)) : bool :=
  existsb (fun ts => existsb is_nil (close ts)) S.

(** Residual patterns after at least one character of a match. *)
Fixpoint states (ts : list token) : list (list token) :=
  match ts with
  | [] => []
  | TChar _ :: r => r :: states r
  | TSpace :: r | TSpaceStar :: r => (TSpaceStar :: r) :: states r
  | TOpen :: r | TClose :: r => states r
  end.

(** No word of [S] is a non-empty prefix of [F] or extends [F]. *)
Fixpoint dead (S : list (list token)) (F : text) : bool :=
  match F with
  | [] => match S with [] => true | _ => false end
  | c :: F' => let S' := deriv c S in negb (nullable S') && dead S' F'
  end.

(** [P] never matches the empty text, and no occurrence of [P] can overlap
    an occurrence of [F], whatever surrounds [F]. *)
Definition overlap_free (P : list token) (F : text) : bool :=
  negb (nullable [P])
  && forallb (fun st => dead [st] F) (states P)
  && forallb (fun j => dead [P] (skipn j F)) (seq 0 (length F)).

(** ** The statements as pure text functions *)

Definition tok (p : text) : list token :=
  match compile p with inr ts => ts | inl _ => [] end.

Definition compiles (st : step) : bool :=
  match st with
  | ReSub p _ => match compile p with inr _ => true | inl _ => false end
  | Replace _ _ => true
  end.

Definition apply_step (st : step) (content : text) : text :=
  match st with
  | ReSub p tmpl => sub (tok p) (rep_of (tok p) tmpl) content
  | Replace old new => str_replace old new content
  end.

Definition apply_steps (sts : list step) (content : text) : text :=
  fold_left (fun c st => apply_step st c) sts content.

(** The pattern a statement looks for, its replacement function, and the
    fixed text it inserts (a literal edit inserts [new]; the header rules
    keep group 1 and insert the rest of the template with group 2, which
    is always ["}"]). *)
Definition pat_of (st : step) : list token :=
  match st with
  | ReSub p _ => tok p
  | Replace old _ => map TChar old
  end.

Definition rep_step (st : step) : list text -> text :=
  match st with
  | ReSub p tmpl => rep_of (tok p) tmpl
  | Replace _ new => fun _ => new
  end.

Definition F_of (st : step) : text :=
  match st with
  | ReSub _ tmpl => expand (fun k => if Nat.eqb k 2 then [125] else []) tmpl
  | Replace _ new => new
  end.

(** Every pattern of a statement list can overlap none of the texts
    inserted by itself or by the statements after it. *)
Fixpoint pipeline_check (sts : list step) : bool :=
  match sts with
  | [] => true
  | st :: sts' =>
    forallb (fun st' => overlap_free (pat_of st) (F_of st')) sts
    && pipeline_check sts'
  end.

(** The header rules' patterns end with [\s+(\})]: the tokens after the
    body of group 1. *)
Definition hdr_tail : list token := [TClose; TSpace; TOpen; TChar 125; TClose].

(** Tokens that are neither groups nor the internal [TSpaceStar]. *)
Definition plain (t : token) : bool :=
  match t with TChar _ | TSpace => true | _ => false end.

(** Number of ["}"] in a text and in a pattern. *)
Definition cnt (w : text) : nat := length (filter (N.eqb 125) w).

Definition cnt_tok (ts : list token) : nat :=
  length (filter (fun t => match t with TChar d => d =? 125 | _ => false end) ts).

(** The group numbers a template refers to, read as [expand] reads it. *)
Fixpoint refs (t : text) : list nat :=
  match t with
  | [] => []
  | c :: t1 =>
    if c =? 92 then
      match t1 with
      | [] => []
      | d :: t2 =>
        if (49 <=? d) && (d <=? 57) then N.to_nat (d - 48) :: refs t2
        else refs t2
      end
    else refs t1
  end.

(** The shape a statement's replacement must have for the scan lemmas. *)
Definition step_ok (st : step) : Prop :=
  forall s segs r, match_toks (pat_of st) s = Some (segs, r) ->
  exists pre post, rep_step st segs = pre ++ F_of st
                   /\ concat segs = pre ++ post /\ NoOcc (pat_of st) pre.

(** The text each routine writes back: its statements applied in order
    to the text it read ([run_steps_ok] below: the routine's run gives this
    text, its patterns all compile). *)
Definition fix_mbox_content (content : text) : text := apply_steps mbox_steps content.
Definition fix_msg_content (content : text) : text := apply_steps msg_steps content.
Definition fix_vcf_content (content : text) : text := apply_steps vcf_steps content.

(** The count of a statement: [re.subn]'s second component for a
    [re.sub], [str.count] for a [str.replace]. *)
Definition count_step (st : step) (content : text) : nat :=
  match st with
  | ReSub p tmpl => snd (subn (tok p) (rep_of (tok p) tmpl) content)
  | Replace old new => snd (str_replacen old new content)
  end.

(** Body of group 1 of a header pattern (between [TOpen] and [hdr_tail]). *)
Definition hdr_body (P : list token) : list token := firstn (length P - 6) (tl P).

(** ** Instances of a pattern

    [fill ts ws] is the text the pattern [ts] describes when its [k]-th
    [\s+] stands for the [k]-th whitespace run of [ws]. *)
Fixpoint fill (ts : list token) (ws : list text) : text :=
  match ts with
  | [] => []
  | TChar c :: r => c :: fill r ws
  | TSpace :: r =>
    match ws with
    | u :: ws' => u ++ fill r ws'
    | [] => fill r []
    end
  | TSpaceStar :: r | TOpen :: r | TClose :: r => fill r ws
  end.

Fixpoint nspace (ts : list token) : nat :=
  match ts with
  | [] => O
  | TSpace :: r => S (nspace r)
  | _ :: r => nspace r
  end.

(** A whitespace run: non-empty, of [str.isspace] characters. *)
Definition ws_run (u : text) : bool :=
  match u with [] => false | _ => forallb is_space u end.

Fixpoint first_char (ts : list token) : option N :=
  match ts with
  | TChar c :: _ => Some c
  | TOpen :: r | TClose :: r => first_char r
  | _ => None
  end.

(** Every [\s+] is followed by a literal character that is not
    whitespace, so the greedy run stops where the instance's run stops. *)
Fixpoint guarded (ts : list token) : bool :=
  match ts with
  | [] => true
  | TChar _ :: r | TOpen :: r | TClose :: r => guarded r
  | TSpace :: r =>
    match first_char r with
    | Some c => negb (is_space c) && guarded r
    | None => false
    end
  | TSpaceStar :: _ => false
  end.

(** ** The scan of [re.sub] as a list of pieces: text copied before a
    match, then the segments of the match. *)
Fixpoint scan_input (parts : list (text * list text)) (last : text) : text :=
  match parts with
  | [] => last
  | (x, segs) :: ps => x ++ concat segs ++ scan_input ps last
  end.

Fixpoint scan_output (rep : list text -> text) (parts : list (text * list text))
  (last : text) : text :=
  match parts with
  | [] => last
  | (x, segs) :: ps => x ++ rep segs ++ scan_output rep ps last
  end.

(** Each match is the one the matcher returns at the leftmost position
    where an occurrence starts, and scanning resumes after its end; no
    occurrence is left in the uncut tail. *)
Fixpoint leftmost (P : list token) (parts : list (text * list text)) (last : text)
  : Prop :=
  match parts with
  | [] => NoOcc P last
  | (x, segs) :: ps =>
    NoOccBefore P x (concat segs ++ scan_input ps last)
    /\ match_toks P (concat segs ++ scan_input ps last)
       = Some (segs, scan_input ps last)
    /\ leftmost P ps last
  end.

(** ** The events of statements that all compile *)
Definition trace_of (sts : list step) : list event :=
  flat_map (fun st => match st with
                      | ReSub p _ => [EvCompile p; EvSub p]
                      | Replace old _ => [EvReplace old]
                      end) sts.

(** ** The routines with their files

    A world maps paths to file contents.  A routine opens its file for
    reading, reads it, runs its statements, then opens the file for
    writing (which truncates it), writes the text, and prints.  A write may
    fail after [k] characters ([fault = Some k]). *)
Definition world := text -> option text.

Definition upd (w : world) (path c : text) : world :=
  fun p => if list_eq_dec N.eq_dec p path then Some c else w p.

Inductive io_event :=
| IoOpenRead (path : text)
| IoRead (path : text)
| IoRule (e : event)
| IoOpenWrite (path : text)
| IoWrite (path data : text)
| IoPrint (msg : text).

Inductive io_error :=
| FileNotFound
| ReError (e : re_error)
| WriteError.

Record io_result := mk_io {
  io_trace : list io_event;
  io_status : sum io_error unit;
  io_world : world }.

Definition fix_file (path : text) (sts : list step) (msg : text)
  (fault : option nat) (w : world) : io_result :=
  match w path with
  | None => mk_io [IoOpenRead path] (inl FileNotFound) w
  | Some content =>
    let (ev, r) := run_steps sts content in
    let pre := [IoOpenRead path; IoRead path] ++ map IoRule ev in
    match r with
    | inl e => mk_io pre (inl (ReError e)) w
    | inr c' =>
      let w1 := upd w path [] in
      match fault with
      | None =>
        mk_io (pre ++ [IoOpenWrite path; IoWrite path c'; IoPrint msg])
              (inr tt) (upd w1 path c')
      | Some k =>
        mk_io (pre ++ [IoOpenWrite path; IoWrite path c'])
              (inl WriteError) (upd w1 path (firstn k c'))
      end
    end
  end.

Definition mbox_path : text := q "crates/prism-parsers/src/email/mbox.rs".
Definition msg_path : text := q "crates/prism-parsers/src/email/msg.rs".
Definition vcf_path : text := q "crates/prism-parsers/src/email/vcf.rs".

Definition fix_mbox (fault : option nat) (w : world) : io_result :=
  fix_file mbox_path mbox_steps (q "Fixed mbox.rs") fault w.
Definition fix_msg (fault : option nat) (w : world) : io_result :=
  fix_file msg_path msg_steps (q "Fixed msg.rs") fault w.
Definition fix_vcf (fault : option nat) (w : world) : io_result :=
  fix_file vcf_path vcf_steps (q "Fixed vcf.rs") fault w.

(** The three routines: file, statements, message. *)
Definition routines : list (text * list step * text) :=
  [ (mbox_path, mbox_steps, q "Fixed mbox.rs");
    (msg_path, msg_steps, q "Fixed msg.rs");
    (vcf_path, vcf_steps, q "Fixed vcf.rs") ].

(** ** The script's main block: [fix_mbox()], [fix_msg()], [fix_vcf()],
    then the final print.  An exception in a routine ends the script, the
    routines after it do not run. *)
Definition seq_io (r : io_result) (k : world -> io_result) : io_result :=
  match io_status r with
  | inl _ => r
  | inr _ =>
    let r2 := k (io_world r) in
    mk_io (io_trace r ++ io_trace r2) (io_status r2) (io_world r2)
  end.

Definition script_main (f1 f2 f3 : option nat) (w : world) : io_result :=
  seq_io (fix_mbox f1 w) (fun w1 =>
  seq_io (fix_msg f2 w1) (fun w2 =>
  seq_io (fix_vcf f3 w2) (fun w3 =>
  mk_io [IoPrint (q "All email parsers fixed!")] (inr tt) w3))).

(** The three header rules, and the [format!] texts their patterns (and
    the pattern of the vcf note rule) spell out literally. *)
Definition header_steps : list step :=
  [ ReSub mbox_header_pat mbox_header_repl;
    ReSub msg_header_pat msg_header_repl;
    ReSub vcf_field_pat vcf_field_repl ].

Definition format_hdr_lit : text := q "format!(`{}: {}}\n`".
Definition format_note_lit : text := q "format!(`{}}\n`, note)".

(** The text the vcf filter rule's pattern stands for. *)
Definition vcf_filter_old : text := q ".filter(|s| !s.is_empty())".

(** The statements of the three routines together. *)
Definition all_steps : list step := mbox_steps ++ msg_steps ++ vcf_steps.

(** A two-field [TextRun] literal, and the same literal with the two
    trailing fields [bounds] and [char_positions] added. *)
Definition textrun_two : text :=
  q "TextRun { text: `x`.to_string(), style: Default::default() }".


(** The pattern of a [re.sub] starts with a character that is not
    whitespace (groups aside). *)
Definition starts_nonspace (st : step) : bool :=
  match st with
  | ReSub p _ =>
    match first_char (tok p) with Some c => negb (is_space c) | None => false end
  | Replace _ _ => true
  end.

(** The matcher finds no match of [P] at any position inside [g], the
    text after [g] being [s]. *)
Fixpoint no_match_in (P : list token) (g s : text) : bool :=
  match g with
  | [] => true
  | _ :: g' =>
    match match_toks P (g ++ s) with
    | Some _ => false
    | None => no_match_in P g' s
    end
  end.

(** Some pattern of [S] matches [w]. *)
Definition inLS (S : list (list token)) (w : text) : Prop :=
  exists ts, In ts S /\ inL ts w.

(** * Proofs *)

(** ** The matcher against the language *)

Lemma space_run_firstn s k :
  (k <= space_run s)%nat -> Forall (fun c => is_space c = true) (firstn k s).
Proof.
  revert k; induction s as [|c s IH]; intros [|k] Hk; simpl in *; auto.
  destruct (is_space c) eqn:E; [|lia]. constructor; auto. apply IH; lia.
Qed.

Lemma space_run_app u z :
  Forall (fun c => is_space c = true) u -> (length u <= space_run (u ++ z))%nat.
Proof. induction 1 as [|c u Hc _ IH]; simpl; [lia|]. rewrite Hc; lia. Qed.

Lemma try_run_some m s k segs r :
  try_run m s k = Some (segs, r) ->
  exists j segs', (1 <= j <= k)%nat /\ m (skipn j s) = Some (segs', r)
                  /\ segs = firstn j s :: segs'.
Proof.
  induction k as [|k IH]; cbn [try_run]; [discriminate|].
  destruct (m (skipn (S k) s)) as [[sg rr]|] eqn:E; intro H.
  - inversion H; subst. exists (S k), sg. repeat split; auto; lia.
  - destruct (IH H) as (j & sg & Hj & Hm & ->). exists j, sg.
    repeat split; auto; lia.
Qed.

Lemma try_run_none m s k :
  try_run m s k = None -> forall j, (1 <= j <= k)%nat -> m (skipn j s) = None.
Proof.
  induction k as [|k IH]; intros H j Hj; [lia|]. cbn [try_run] in H.
  destruct (m (skipn (S k) s)) as [[? ?]|] eqn:E; [discriminate|].
  destruct (Nat.eq_dec j (S k)) as [->|]; auto. apply IH; auto; lia.
Qed.

Lemma firstn_run_nonempty s j :
  (1 <= j <= space_run s)%nat -> firstn j s <> [].
Proof. destruct s, j; simpl; try lia; discriminate. Qed.

Lemma match_sound ts : forall s segs r,
  match_toks ts s = Some (segs, r) -> s = concat segs ++ r /\ Forall2 seg_ok ts segs.
Proof.
  induction ts as [|t ts IH]; intros s segs r H.
  - simpl in H. inversion H; subst. split; [reflexivity|constructor].
  - destruct t; simpl in H.
    + destruct s as [|d s']; [discriminate|].
      destruct (c =? d) eqn:E; [|discriminate]. apply N.eqb_eq in E; subst.
      destruct (match_toks ts s') as [[sg rr]|] eqn:M; [|discriminate].
      inversion H; subst. destruct (IH _ _ _ M) as [-> HF].
      split; [reflexivity|constructor; [constructor|auto]].
    + apply try_run_some in H. destruct H as (j & sg & Hj & M & ->).
      destruct (IH _ _ _ M) as [Hs HF]. split.
      * simpl. rewrite <- app_assoc, <- Hs, firstn_skipn. reflexivity.
      * constructor; auto. constructor.
        -- apply firstn_run_nonempty; lia.
        -- apply space_run_firstn; lia.
    + destruct (try_run (match_toks ts) s (space_run s)) as [[sg0 r0]|] eqn:T.
      * inversion H; subst. apply try_run_some in T.
        destruct T as (j & sg & Hj & M & ->).
        destruct (IH _ _ _ M) as [Hs HF]. split.
        -- simpl. rewrite <- app_assoc, <- Hs, firstn_skipn. reflexivity.
        -- constructor; auto. constructor. apply space_run_firstn; lia.
      * destruct (match_toks ts s) as [[sg rr]|] eqn:M; [|discriminate].
        inversion H; subst. destruct (IH _ _ _ M) as [Hs HF].
        split; [exact Hs|]. constructor; auto. constructor. constructor.
    + destruct (match_toks ts s) as [[sg rr]|] eqn:M; [|discriminate].
      inversion H; subst. destruct (IH _ _ _ M) as [Hs HF].
      split; [exact Hs|]. constructor; auto. constructor.
    + destruct (match_toks ts s) as [[sg rr]|] eqn:M; [|discriminate].
      inversion H; subst. destruct (IH _ _ _ M) as [Hs HF].
      split; [exact Hs|]. constructor; auto. constructor.
Qed.

Lemma Forall2_seg_inL ts segs : Forall2 seg_ok ts segs -> inL ts (concat segs).
Proof.
  induction 1 as [|t sg ts segs Hs _ IH]; simpl; [constructor|].
  inversion Hs; subst; simpl; constructor; auto.
Qed.

Lemma match_inL ts s segs r :
  match_toks ts s = Some (segs, r) -> s = concat segs ++ r /\ inL ts (concat segs).
Proof.
  intro H. destruct (match_sound _ _ _ _ H) as [Hs HF].
  split; [exact Hs|]. apply Forall2_seg_inL; exact HF.
Qed.

Lemma match_complete ts : forall s, match_toks ts s = None ->
  forall w y, s = w ++ y -> ~ inL ts w.
Proof.
  induction ts as [|t ts IH]; intros s H w y Hs Hw.
  - simpl in H; discriminate.
  - inversion Hw as [|c ts' w0 Hw0|u ts' w0 Hu Hsp Hw0|u ts' w0 Hsp Hw0
                     |ts' w0 Hw0|ts' w0 Hw0]; subst; clear Hw; simpl in H.
    + rewrite N.eqb_refl in H.
      destruct (match_toks ts (w0 ++ y)) as [[? ?]|] eqn:M; [discriminate|].
      exact (IH _ M w0 y eq_refl Hw0).
    + pose proof (try_run_none _ _ _ H (length u)) as Hn.
      rewrite <- app_assoc, skipn_app, skipn_all, Nat.sub_diag in Hn.
      simpl in Hn. refine (IH _ (Hn _) w0 y eq_refl Hw0).
      pose proof (space_run_app u (w0 ++ y) Hsp).
      destruct u; [congruence|simpl in *; lia].
    + destruct (try_run (match_toks ts) ((u ++ w0) ++ y) _) as [[? ?]|] eqn:T;
        [discriminate|].
      destruct u as [|c u'].
      * simpl in H. destruct (match_toks ts (w0 ++ y)) as [[? ?]|] eqn:M;
          [discriminate|]. exact (IH _ M w0 y eq_refl Hw0).
      * pose proof (try_run_none _ _ _ T (length (c :: u'))) as Hn.
        rewrite <- app_assoc, skipn_app, skipn_all, Nat.sub_diag in Hn.
        simpl in Hn. refine (IH _ (Hn _) w0 y eq_refl Hw0).
        pose proof (space_run_app (c :: u') (w0 ++ y) Hsp).
        simpl in *; lia.
    + destruct (match_toks ts (w ++ y)) as [[? ?]|] eqn:M; [discriminate|].
      exact (IH _ M w y eq_refl Hw0).
    + destruct (match_toks ts (w ++ y)) as [[? ?]|] eqn:M; [discriminate|].
      exact (IH _ M w y eq_refl Hw0).
Qed.

(** ** The derivative automaton against the language *)

Lemma inL_nil_close_gen ts w : inL ts w -> w = [] -> existsb is_nil (close ts) = true.
Proof.
  induction 1 as [|c ts w H IH|u ts w Hu Hsp H IH|u ts w Hsp H IH
                 |ts w H IH|ts w H IH]; intro E; simpl; auto; try discriminate.
  - apply app_eq_nil in E as [-> _]. congruence.
  - apply app_eq_nil in E as [_ ->]. auto.
Qed.

Lemma inL_nil_close ts : inL ts [] -> existsb is_nil (close ts) = true.
Proof. intro H. exact (inL_nil_close_gen _ _ H eq_refl). Qed.

Lemma inL_cons_step_gen ts w0 : inL ts w0 -> forall c w, w0 = c :: w ->
  exists ts', In ts' (flat_map (step1 c) (close ts)) /\ inL ts' w.
Proof.
  induction 1 as [|d ts w H IH|u ts w Hu Hsp H IH|u ts w Hsp H IH
                 |ts w H IH|ts w H IH]; intros c' w' E; simpl.
  - discriminate.
  - inversion E; subst. exists ts. rewrite N.eqb_refl. simpl; auto.
  - destruct u as [|d u']; [congruence|]. inversion E; subst.
    inversion Hsp as [|? ? Hd Hsp']; subst. rewrite Hd.
    exists (TSpaceStar :: ts). split; [simpl; auto|]. constructor; auto.
  - destruct u as [|d u'].
    + simpl in E. destruct (IH _ _ E) as (ts2 & Hin & Hts2).
      exists ts2. split; auto. apply in_or_app; right; exact Hin.
    + inversion E; subst. inversion Hsp as [|? ? Hd Hsp']; subst. rewrite Hd.
      exists (TSpaceStar :: ts). split; [simpl; auto|]. constructor; auto.
  - exact (IH _ _ E).
  - exact (IH _ _ E).
Qed.

Lemma inL_cons_step ts c w :
  inL ts (c :: w) -> exists ts', In ts' (flat_map (step1 c) (close ts)) /\ inL ts' w.
Proof. intro H. exact (inL_cons_step_gen _ _ H c w eq_refl). Qed.

Lemma inLS_deriv S c w : inLS S (c :: w) -> inLS (deriv c S) w.
Proof.
  intros (ts & Hin & H). destruct (inL_cons_step _ _ _ H) as (ts' & Hin' & H').
  exists ts'. split; auto. unfold deriv.
  apply in_flat_map in Hin' as (x & Hx & Hx').
  apply in_flat_map. exists x. split; auto.
  apply in_flat_map. exists ts. auto.
Qed.

Lemma inLS_nullable S : inLS S [] -> nullable S = true.
Proof.
  intros (ts & Hin & H). apply existsb_exists. exists ts.
  split; auto. apply inL_nil_close; exact H.
Qed.

Lemma dead_sound F : forall S w, dead S F = true -> inLS S w -> w <> [] ->
  (exists y, w ++ y = F) \/ (exists y, w = F ++ y) -> False.
Proof.
  induction F as [|c F IH]; intros S w Hd HS Hw Hcmp.
  - destruct S; [|discriminate]. destruct HS as (? & [] & _).
  - simpl in Hd. apply andb_true_iff in Hd as [Hn Hd].
    destruct w as [|d w']; [congruence|].
    assert (d = c /\ ((exists y, w' ++ y = F) \/ (exists y, w' = F ++ y)))
      as [-> Hcmp'].
    { destruct Hcmp as [[y Hy]|[y Hy]]; simpl in Hy; inversion Hy; subst;
        split; eauto. }
    pose proof (inLS_deriv _ _ _ HS) as HS'.
    destruct w' as [|e w''].
    + apply inLS_nullable in HS'. rewrite HS' in Hn. discriminate.
    + exact (IH _ _ Hd HS' ltac:(discriminate) Hcmp').
Qed.

Lemma states_inL_gen ts w : inL ts w -> forall w1 w2, w = w1 ++ w2 -> w1 <> [] ->
  inLS (states ts) w2.
Proof.
  induction 1 as [|d ts w H IH|u ts w Hu Hsp H IH|u ts w Hsp H IH
                 |ts w H IH|ts w H IH]; intros w1 w2 E Hne; simpl.
  - symmetry in E. apply app_eq_nil in E as [-> _]. congruence.
  - destruct w1 as [|e w1']; [congruence|]. inversion E; subst.
    destruct w1' as [|f w1''].
    + exists ts. simpl; auto.
    + destruct (IH (f :: w1'') w2 eq_refl ltac:(discriminate)) as (ts2 & ? & ?).
      exists ts2; simpl; auto.
  - apply app_eq_app in E as (l & [[-> ->]|[-> ->]]).
    + apply Forall_app in Hsp as [_ Hl].
      exists (TSpaceStar :: ts). split; [simpl; auto|]. constructor; auto.
    + destruct l as [|f l'].
      * exists (TSpaceStar :: ts). split; [simpl; auto|].
        apply (inL_star []); auto.
      * destruct (IH (f :: l') w2 eq_refl ltac:(discriminate)) as (ts2 & ? & ?).
        exists ts2; simpl; auto.
  - apply app_eq_app in E as (l & [[-> ->]|[-> ->]]).
    + apply Forall_app in Hsp as [_ Hl].
      exists (TSpaceStar :: ts). split; [simpl; auto|]. constructor; auto.
    + destruct l as [|f l'].
      * exists (TSpaceStar :: ts). split; [simpl; auto|].
        apply (inL_star []); auto.
      * destruct (IH (f :: l') w2 eq_refl ltac:(discriminate)) as (ts2 & ? & ?).
        exists ts2; simpl; auto.
  - exact (IH _ _ E Hne).
  - exact (IH _ _ E Hne).
Qed.

Lemma states_inL ts w1 w2 : inL ts (w1 ++ w2) -> w1 <> [] -> inLS (states ts) w2.
Proof. intros H Hne. exact (states_inL_gen _ _ H w1 w2 eq_refl Hne). Qed.

(** ** Where a pattern can occur around a fixed text *)

Lemma app_cmp {A} (u y v b : list A) :
  u ++ y = v ++ b -> (exists z, u ++ z = v) \/ (exists z, u = v ++ z).
Proof.
  intro H. apply app_eq_app in H as (l & [[-> _]|[-> _]]); eauto.
Qed.

Lemma app_same_length {A} (x u a v : list A) :
  x ++ u = a ++ v -> length a = length x -> a = x /\ u = v.
Proof.
  intros H Hl. apply app_eq_app in H as (l & [[-> E]|[-> E]]);
    rewrite length_app in Hl; destruct l; simpl in *; try lia;
    rewrite app_nil_r; auto.
Qed.

Lemma overlap_nonnull P F : overlap_free P F = true -> ~ inL P [].
Proof.
  unfold overlap_free. intros H Hn.
  apply andb_true_iff in H as [H _]. apply andb_true_iff in H as [H _].
  rewrite (inLS_nullable [P]) in H; [discriminate|].
  exists P; simpl; auto.
Qed.

(** An occurrence cannot start inside [F] ... *)
Lemma overlap_start_inside P F l l3 w b y :
  overlap_free P F = true -> F = l ++ l3 -> l3 <> [] -> w ++ b = l3 ++ y ->
  inL P w -> False.
Proof.
  intros Hov HF Hl3 Heq Hw. pose proof (overlap_nonnull _ _ Hov) as Hnn.
  unfold overlap_free in Hov. apply andb_true_iff in Hov as [_ Hpos].
  rewrite forallb_forall in Hpos.
  assert (Hd : dead [P] l3 = true).
  { specialize (Hpos (length l)). subst F.
    rewrite skipn_app, skipn_all, Nat.sub_diag in Hpos. apply Hpos.
    apply in_seq. rewrite length_app. destruct l3; [congruence|simpl; lia]. }
  apply (dead_sound l3 [P] w Hd).
  - exists P; simpl; auto.
  - intros ->. contradiction.
  - destruct (app_cmp _ _ _ _ Heq) as [H|H]; [left|right]; exact H.
Qed.

(** ... nor start before [F] and reach into it. *)
Lemma overlap_start_before P F l l2 y b :
  overlap_free P F = true -> inL P (l ++ l2) -> l <> [] -> l2 <> [] ->
  F ++ y = l2 ++ b -> False.
Proof.
  intros Hov Hw Hl Hl2 Heq.
  unfold overlap_free in Hov. apply andb_true_iff in Hov as [Hov _].
  apply andb_true_iff in Hov as [_ Hst]. rewrite forallb_forall in Hst.
  destruct (states_inL _ _ _ Hw Hl) as (st & Hin & Hst2).
  apply (dead_sound F [st] l2 (Hst st Hin)).
  - exists st; simpl; auto.
  - exact Hl2.
  - symmetry in Heq. destruct (app_cmp _ _ _ _ Heq) as [H|H]; [left|right]; exact H.
Qed.

Lemma overlap_free_sound P F x y a w b :
  overlap_free P F = true -> x ++ F ++ y = a ++ w ++ b -> inL P w ->
  (exists m, x = a ++ w ++ m) \/ (exists m, a = x ++ F ++ m).
Proof.
  intros Hov Heq Hw.
  apply app_eq_app in Heq as (l & [[Hx E]|[Ha E]]).
  - apply app_eq_app in E as (l2 & [[Hw2 E2]|[Hl E2]]).
    + (* the occurrence starts in [x] and goes past its end *)
      subst. destruct l as [|c l'].
      * destruct F as [|f F'].
        -- right. exists []. rewrite !app_nil_r. reflexivity.
        -- exfalso. apply (overlap_start_inside P (f :: F') [] (f :: F') l2 b y Hov);
             auto; discriminate.
      * destruct l2 as [|d l2'].
        -- left. exists []. rewrite !app_nil_r. reflexivity.
        -- exfalso. apply (overlap_start_before P F (c :: l') (d :: l2') y b Hov);
             auto; discriminate.
    + left. exists l2. subst. reflexivity.
  - apply app_eq_app in E as (l3 & [[HF E3]|[Hl E3]]).
    + destruct l3 as [|c l3'].
      * right. exists []. subst. rewrite !app_nil_r. reflexivity.
      * exfalso. apply (overlap_start_inside P F l (c :: l3') w b y Hov); auto.
        discriminate.
    + right. exists l3. subst. rewrite app_assoc. reflexivity.
Qed.

(** ** What one [re.sub] scan does to occurrences *)

Section Scan.
Variable P : list token.
Variable rep : list text -> text.
Variable F : text.

(** [rep] keeps a prefix of the matched text and appends the fixed [F]. *)
Hypothesis rep_shape : forall s segs r, match_toks P s = Some (segs, r) ->
  exists pre post, rep segs = pre ++ F /\ concat segs = pre ++ post.

(** A pattern that cannot overlap [F] stays absent. *)
Lemma sub_keeps Q (Hov : overlap_free Q F = true) :
  forall fuel s x, NoOcc Q (x ++ s) -> NoOcc Q (x ++ fst (subn_fuel fuel P rep s)).
Proof.
  induction fuel as [|f IH]; intros s x H; simpl; [exact H|].
  destruct (match_toks P s) as [[segs r]|] eqn:M.
  - destruct (subn_fuel f P rep r) as [o n] eqn:E. simpl.
    destruct (rep_shape _ _ _ M) as (pre & post & Hrep & Hcat).
    destruct (match_inL _ _ _ _ M) as [Hs _].
    assert (H' : NoOcc Q ((x ++ pre ++ F) ++ r)).
    { intros a w b Heq Hw.
      rewrite <- !app_assoc, app_assoc in Heq.
      destruct (overlap_free_sound Q F (x ++ pre) r a w b Hov Heq Hw)
        as [[m Hm]|[m Hm]].
      - apply (H a w (m ++ post ++ r)); [|exact Hw].
        rewrite Hs, Hcat, <- !app_assoc, (app_assoc x pre), Hm, <- !app_assoc.
        reflexivity.
      - subst a. rewrite <- !app_assoc in Heq.
        apply app_inv_head in Heq. apply app_inv_head in Heq.
        apply app_inv_head in Heq. subst r.
        apply (H (x ++ pre ++ post ++ m) w b); [|exact Hw].
        rewrite Hs, Hcat, <- !app_assoc. reflexivity. }
    specialize (IH r _ H'). rewrite E in IH. simpl in IH.
    rewrite Hrep. rewrite <- !app_assoc in IH. rewrite <- !app_assoc. exact IH.
  - destruct s as [|c s']; [exact H|].
    destruct (subn_fuel f P rep s') as [o n] eqn:E. simpl.
    specialize (IH s' (x ++ [c])). rewrite E in IH. simpl in IH.
    rewrite <- !app_assoc in IH. simpl in IH. apply IH. exact H.
Qed.

(** A prefix kept by [rep] never contains a whole occurrence of [P]. *)
Hypothesis pre_clean : forall s segs r, match_toks P s = Some (segs, r) ->
  exists pre post, rep segs = pre ++ F /\ concat segs = pre ++ post /\ NoOcc P pre.

Hypothesis P_ov : overlap_free P F = true.

(** After the scan, [P] occurs nowhere. *)
Lemma sub_clears :
  forall fuel s x, (length s < fuel)%nat -> NoOccBefore P x s ->
  NoOcc P (x ++ fst (subn_fuel fuel P rep s)).
Proof.
  pose proof (overlap_nonnull _ _ P_ov) as Hnn.
  induction fuel as [|f IH]; intros s x Hlen H; [lia|]. simpl.
  destruct (match_toks P s) as [[segs r]|] eqn:M.
  - destruct (subn_fuel f P rep r) as [o n] eqn:E. simpl.
    destruct (pre_clean _ _ _ M) as (pre & post & Hrep & Hcat & Hpre).
    destruct (match_inL _ _ _ _ M) as [Hs Hin].
    assert (Hr : (length r < f)%nat).
    { subst s. rewrite length_app in Hlen.
      destruct (concat segs); [contradiction|simpl in Hlen; lia]. }
    assert (H' : NoOccBefore P (x ++ pre ++ F) r).
    { intros a w b Heq Hlt Hw.
      rewrite <- !app_assoc, app_assoc in Heq.
      destruct (overlap_free_sound P F (x ++ pre) r a w b P_ov Heq Hw)
        as [[m Hm]|[m Hm]].
      - apply app_eq_app in Hm as (l & [[Hx E2]|[Ha E2]]).
        + destruct l as [|c l'].
          * rewrite app_nil_r in Hx. subst a.
            apply (Hpre [] w m); [simpl in *; congruence|exact Hw].
          * apply (H a w (m ++ post ++ r)); [| |exact Hw].
            -- rewrite Hs, Hcat, Hx, <- !app_assoc, (app_assoc (c :: l') pre), <- E2.
               rewrite <- !app_assoc. reflexivity.
            -- rewrite Hx, length_app. simpl. lia.
        + subst a. apply (Hpre l w m); [congruence|exact Hw].
      - subst a. rewrite !length_app in Hlt. lia. }
    specialize (IH r _ Hr H'). rewrite E in IH. simpl in IH.
    rewrite Hrep. rewrite <- !app_assoc in IH. rewrite <- !app_assoc. exact IH.
  - destruct s as [|c s'].
    + intros a w b Heq Hw. rewrite app_nil_r in Heq.
      apply (H a w b); [rewrite app_nil_r; exact Heq| |exact Hw].
      subst x. rewrite !length_app. destruct w; [contradiction|simpl; lia].
    + destruct (subn_fuel f P rep s') as [o n] eqn:E. simpl.
      assert (H' : NoOccBefore P (x ++ [c]) s').
      { intros a w b Heq Hlt Hw. rewrite <- app_assoc in Heq. simpl in Heq.
        rewrite length_app in Hlt. simpl in Hlt.
        destruct (Nat.eq_dec (length a) (length x)) as [Hl|Hl].
        - destruct (app_same_length _ _ _ _ Heq Hl) as [_ Hcs].
          exact (match_complete P (c :: s') M w b Hcs Hw).
        - apply (H a w b Heq); [lia|exact Hw]. }
      simpl in Hlen.
      specialize (IH s' _ ltac:(lia) H'). rewrite E in IH. simpl in IH.
      rewrite <- !app_assoc in IH. simpl in IH. exact IH.
Qed.

End Scan.

(** ** A scan over a text without occurrences changes nothing *)

Lemma NoOcc_cons P c s : NoOcc P (c :: s) -> NoOcc P s.
Proof. intros H a w b E. apply (H (c :: a) w b). rewrite E. reflexivity. Qed.

Lemma subn_noop P rep : forall fuel s, NoOcc P s -> subn_fuel fuel P rep s = (s, O).
Proof.
  induction fuel as [|f IH]; intros s H; simpl; [reflexivity|].
  destruct (match_toks P s) as [[segs r]|] eqn:M.
  - destruct (match_inL _ _ _ _ M) as [Hs Hin]. exfalso.
    apply (H [] (concat segs) r); [exact Hs|exact Hin].
  - destruct s as [|c s']; [reflexivity|].
    rewrite (IH s' (NoOcc_cons _ _ _ H)). reflexivity.
Qed.

(** ** [str.replace] is the scan of the pattern of its literal characters *)

Lemma match_chars old : forall s, match_toks (map TChar old) s =
  if prefixb old s then Some (map (fun c => [c]) old, skipn (length old) s)
  else None.
Proof.
  induction old as [|a old IH]; intro s; [reflexivity|].
  destruct s as [|d s']; simpl; [reflexivity|].
  destruct (a =? d) eqn:E; simpl; [|reflexivity].
  apply N.eqb_eq in E; subst. rewrite IH.
  destruct (prefixb old s'); reflexivity.
Qed.

Lemma str_replacen_subn old new : forall f s,
  str_replacen_fuel f old new s = subn_fuel f (map TChar old) (fun _ => new) s.
Proof.
  induction f as [|f IH]; intro s; simpl; [reflexivity|].
  rewrite match_chars. destruct (prefixb old s).
  - rewrite IH. reflexivity.
  - destruct s as [|c s']; [reflexivity|]. rewrite IH. reflexivity.
Qed.

Lemma apply_step_sub st c : apply_step st c = sub (pat_of st) (rep_step st) c.
Proof.
  destruct st as [p tmpl|old new]; [reflexivity|].
  simpl. unfold str_replace, str_replacen, sub, subn.
  rewrite str_replacen_subn. reflexivity.
Qed.

Lemma inL_chars old : forall w, inL (map TChar old) w -> w = old.
Proof.
  induction old as [|a old IH]; intros w H; inversion H; subst; [reflexivity|].
  f_equal. apply IH. assumption.
Qed.

Lemma inL_chars_self old : inL (map TChar old) old.
Proof. induction old; simpl; constructor; assumption. Qed.

Lemma NoOcc_chars old u :
  NoOcc (map TChar old) u <-> ~ exists a b, u = a ++ old ++ b.
Proof.
  split.
  - intros H (a & b & E). exact (H a old b E (inL_chars_self old)).
  - intros H a w b E Hw. apply inL_chars in Hw. subst. eauto.
Qed.

(** ** Statement lists *)

Lemma step_ok_shape st : step_ok st -> forall s segs r,
  match_toks (pat_of st) s = Some (segs, r) ->
  exists pre post, rep_step st segs = pre ++ F_of st /\ concat segs = pre ++ post.
Proof.
  intros H s segs r M. destruct (H s segs r M) as (pre & post & ? & ? & _). eauto.
Qed.

Lemma apply_steps_cons st sts t :
  apply_steps (st :: sts) t = apply_steps sts (apply_step st t).
Proof. reflexivity. Qed.

Lemma steps_keep Q : forall sts u, Forall step_ok sts ->
  forallb (fun st => overlap_free Q (F_of st)) sts = true ->
  NoOcc Q u -> NoOcc Q (apply_steps sts u).
Proof.
  induction sts as [|st sts IH]; intros u Hok Hov H; [exact H|].
  inversion Hok as [|? ? Hst Hok']; subst.
  simpl in Hov. apply andb_true_iff in Hov as [Hov1 Hov2].
  rewrite apply_steps_cons. apply IH; auto.
  rewrite apply_step_sub. unfold sub, subn.
  apply (sub_keeps (pat_of st) (rep_step st) (F_of st) (step_ok_shape st Hst)
           Q Hov1 _ u []).
  exact H.
Qed.

Lemma step_clears st u : step_ok st -> overlap_free (pat_of st) (F_of st) = true ->
  NoOcc (pat_of st) (apply_step st u).
Proof.
  intros Hst Hov. rewrite apply_step_sub. unfold sub, subn.
  apply (sub_clears (pat_of st) (rep_step st) (F_of st) Hst Hov
           (S (length u)) u [] ltac:(lia)).
  intros a w b _ Hlt. simpl in Hlt. lia.
Qed.

Lemma pipeline_clean sts : Forall step_ok sts -> pipeline_check sts = true ->
  forall t st, In st sts -> NoOcc (pat_of st) (apply_steps sts t).
Proof.
  induction sts as [|st0 sts IH]; intros Hok Hchk t st Hin; [destruct Hin|].
  inversion Hok as [|? ? Hst0 Hok']; subst.
  simpl in Hchk. apply andb_true_iff in Hchk as [Hov Hchk].
  apply andb_true_iff in Hov as [Hself Hrest].
  rewrite apply_steps_cons.
  destruct Hin as [<-|Hin].
  - apply steps_keep; auto. apply step_clears; auto.
  - apply IH; auto.
Qed.

Lemma steps_noop sts : forall t, (forall st, In st sts -> NoOcc (pat_of st) t) ->
  apply_steps sts t = t.
Proof.
  induction sts as [|st sts IH]; intros t H; [reflexivity|].
  rewrite apply_steps_cons.
  assert (E : apply_step st t = t).
  { rewrite apply_step_sub. unfold sub, subn.
    rewrite subn_noop; [reflexivity|]. apply H. simpl; auto. }
  rewrite E. apply IH. intros st' Hin. apply H. simpl; auto.
Qed.

(** Running the statements of a routine whose patterns all compile gives
    the text of [apply_steps]. *)
Lemma run_steps_ok sts : forall t, forallb compiles sts = true ->
  snd (run_steps sts t) = inr (apply_steps sts t).
Proof.
  induction sts as [|st sts IH]; intros t H; [reflexivity|].
  simpl in H. apply andb_true_iff in H as [Hc H].
  rewrite apply_steps_cons. simpl. unfold bind.
  destruct st as [p tmpl|old new]; simpl.
  - simpl in Hc. unfold tok.
    destruct (compile p) as [e|ts]; [discriminate|].
    destruct (run_steps sts (sub ts (rep_of ts tmpl) t)) as [ev' r] eqn:E.
    simpl. rewrite <- (IH _ H), E. reflexivity.
  - destruct (run_steps sts (str_replace old new t)) as [ev' r] eqn:E.
    simpl. rewrite <- (IH _ H), E. reflexivity.
Qed.

(** ** The replacement of each statement *)

Lemma expand_ext g g' : forall n t, (length t <= n)%nat ->
  (forall k, In k (refs t) -> g k = g' k) -> expand g t = expand g' t.
Proof.
  induction n as [|n IH]; intros t Hl H.
  - destruct t; [reflexivity|simpl in Hl; lia].
  - destruct t as [|c t1]; [reflexivity|].
    cbn [refs] in H. cbn [expand].
    destruct (c =? 92) eqn:E92.
    + destruct t1 as [|d t2]; [reflexivity|].
      assert (Ht2 : forall k, In k (refs t2) -> g k = g' k).
      { intros k Hk. apply H. destruct (_ && _); simpl; auto. }
      assert (IHt : expand g t2 = expand g' t2).
      { apply IH; [simpl in Hl; lia|exact Ht2]. }
      rewrite IHt.
      destruct (d =? 110); [reflexivity|]. destruct (d =? 116); [reflexivity|].
      destruct (d =? 114); [reflexivity|]. destruct (d =? 102); [reflexivity|].
      destruct (d =? 118); [reflexivity|]. destruct (d =? 97); [reflexivity|].
      destruct (d =? 98); [reflexivity|]. destruct (d =? 92); [reflexivity|].
      destruct (d =? 48) eqn:E48; [reflexivity|].
      destruct ((48 <=? d) && (d <=? 57)) eqn:R; [|reflexivity].
      rewrite H; [reflexivity|].
      assert (R' : (49 <=? d) && (d <=? 57) = true).
      { apply andb_true_iff in R as [R1 R2]. apply N.leb_le in R1.
        apply N.eqb_neq in E48. apply andb_true_iff; split; auto.
        apply N.leb_le. lia. }
      rewrite R'. left. reflexivity.
    + f_equal. apply IH; [simpl in Hl; lia|exact H].
Qed.

(** A template without group references inserts a fixed text. *)
Lemma const_step_ok p tmpl : refs tmpl = [] -> nullable [tok p] = false ->
  step_ok (ReSub p tmpl).
Proof.
  intros Hr Hn s segs r M. exists [], (concat segs). split; [|split].
  - cbn [rep_step F_of app]. unfold rep_of.
    apply (expand_ext _ _ (length tmpl)); [lia|]. intros k; rewrite Hr; contradiction.
  - reflexivity.
  - intros a w b E Hw. destruct a; [|discriminate]. destruct w; [|discriminate].
    apply inL_nil_close in Hw. cbn [pat_of] in Hw. unfold nullable in Hn.
    simpl in Hn. rewrite Hw in Hn. discriminate.
Qed.

Lemma replace_step_ok old new : old <> [] -> step_ok (Replace old new).
Proof.
  intros Hne s segs r M. exists [], (concat segs).
  split; [reflexivity|split; [reflexivity|]].
  intros a w b E Hw. destruct a; [|discriminate]. destruct w; [|discriminate].
  apply inL_chars in Hw. congruence.
Qed.

(** Counting ["}"]. *)
Lemma cnt_app a b : cnt (a ++ b) = (cnt a + cnt b)%nat.
Proof. unfold cnt. rewrite filter_app, length_app. reflexivity. Qed.

Lemma cnt_spaces u : Forall (fun c => is_space c = true) u -> cnt u = O.
Proof.
  induction 1 as [|x u Hx _ IH]; [reflexivity|].
  unfold cnt in *. cbn [filter].
  destruct (N.eqb_spec 125 x) as [<-|_]; [discriminate Hx|exact IH].
Qed.

Lemma inL_cnt ts w : inL ts w -> cnt w = cnt_tok ts.
Proof.
  induction 1 as [|c ts w _ IH|u ts w _ Hu _ IH|u ts w Hu _ IH|ts w _ IH|ts w _ IH];
    unfold cnt_tok in *; simpl; try rewrite cnt_app, cnt_spaces by exact Hu; auto.
  unfold cnt in *. cbn [filter].
  destruct (N.eqb_spec 125 c), (N.eqb_spec c 125); subst; cbn [length]; try lia;
    congruence.
Qed.

Lemma cnt_tok_hdr A : cnt_tok (TOpen :: A ++ hdr_tail) = (cnt_tok A + 1)%nat.
Proof. unfold cnt_tok. simpl. rewrite filter_app, length_app. simpl. lia. Qed.

(** Capture groups across plain tokens. *)
Lemma grp_body_plain A l1 rest segs2 : Forall2 seg_ok A l1 -> forallb plain A = true ->
  grp_body (A ++ TClose :: rest) (l1 ++ segs2) = concat l1.
Proof.
  induction 1 as [|t x A l1 _ _ IH]; intros HA; [reflexivity|].
  simpl in HA. apply andb_true_iff in HA as [Ht HA].
  destruct t; try discriminate; simpl; rewrite IH; auto.
Qed.

Lemma grp_skip_plain A l1 k ts segs2 : Forall2 seg_ok A l1 -> forallb plain A = true ->
  grp k (A ++ ts) (l1 ++ segs2) = grp k ts segs2.
Proof.
  induction 1 as [|t x A l1 _ _ IH]; intros HA; [reflexivity|].
  simpl in HA. apply andb_true_iff in HA as [Ht HA].
  destruct t; try discriminate; simpl; apply IH; auto.
Qed.

Lemma hdr_tail_segs l2 : Forall2 seg_ok hdr_tail l2 ->
  exists u, l2 = [[]; u; []; [125]; []].
Proof.
  unfold hdr_tail. intro H.
  repeat match goal with
         | H : Forall2 _ (_ :: _) _ |- _ => inversion H; subst; clear H
         | H : Forall2 _ [] _ |- _ => inversion H; subst; clear H
         | H : seg_ok (TChar _) _ |- _ => inversion H; subst; clear H
         | H : seg_ok TOpen _ |- _ => inversion H; subst; clear H
         | H : seg_ok TClose _ |- _ => inversion H; subst; clear H
         end.
  eexists; reflexivity.
Qed.

Lemma expand_ref1 g t : expand g (92 :: 49 :: t) = g 1%nat ++ expand g t.
Proof. reflexivity. Qed.

(** The header rules keep group 1 (the matched text up to the last
    whitespace run), then insert the fixed rest of the template with
    group 2, the closing ["}"]. *)
Lemma header_step_ok p tmpl A t :
  tok p = TOpen :: A ++ hdr_tail -> forallb plain A = true ->
  tmpl = 92 :: 49 :: t -> refs t = [2%nat] -> step_ok (ReSub p tmpl).
Proof.
  intros HP HA Ht Hr s segs r M. cbn [pat_of] in M. rewrite HP in M.
  destruct (match_sound _ _ _ _ M) as [_ HF].
  inversion HF as [|? sg0 ? segs' Hs0 HF']; subst. inversion Hs0; subst.
  apply Forall2_app_inv_l in HF' as (l1 & l2 & H1 & H2 & ->).
  destruct (hdr_tail_segs _ H2) as [u ->].
  exists (concat l1), (concat [[]; u; []; [125]; []]).
  cbn [rep_step F_of pat_of]. unfold rep_of. rewrite HP, !expand_ref1.
  assert (G1 : grp 1 (TOpen :: A ++ hdr_tail) ([] :: l1 ++ [[]; u; []; [125]; []])
               = concat l1).
  { apply grp_body_plain; auto. }
  assert (G2 : grp 2 (TOpen :: A ++ hdr_tail) ([] :: l1 ++ [[]; u; []; [125]; []])
               = [125]).
  { cbn [grp]. rewrite grp_skip_plain; auto. }
  split; [|split].
  - match goal with |- context [grp 1 ?P ?S] =>
      replace (grp 1 P S) with (concat l1) by (symmetry; exact G1) end.
    simpl. f_equal.
    apply (expand_ext _ _ (length t)); [lia|]. rewrite Hr.
    intros k [<-|[]]. exact G2.
  - simpl. rewrite concat_app. reflexivity.
  - intros a w b E Hw. apply inL_cnt in Hw. rewrite cnt_tok_hdr in Hw.
    pose proof (inL_cnt _ _ (Forall2_seg_inL _ _ H1)) as C.
    rewrite E, !cnt_app in C. lia.
Qed.

(** ** The three routines *)

Ltac step_ok_tac :=
  first
  [ apply replace_step_ok; vm_compute; discriminate
  | apply const_step_ok; vm_compute; reflexivity
  | match goal with |- step_ok (ReSub ?p ?tmpl) =>
      apply (header_step_ok p tmpl (hdr_body (tok p)) (skipn 2 tmpl));
      vm_compute; reflexivity end ].

Lemma mbox_steps_ok : Forall step_ok mbox_steps.
Proof. unfold mbox_steps. repeat constructor; step_ok_tac. Qed.

Lemma msg_steps_ok : Forall step_ok msg_steps.
Proof. unfold msg_steps. repeat constructor; step_ok_tac. Qed.

Lemma vcf_steps_ok : Forall step_ok vcf_steps.
Proof. unfold vcf_steps. repeat constructor; step_ok_tac. Qed.

Lemma mbox_check : pipeline_check mbox_steps = true.
Proof. vm_compute. reflexivity. Qed.

Lemma msg_check : pipeline_check msg_steps = true.
Proof. vm_compute. reflexivity. Qed.

Lemma vcf_check : pipeline_check vcf_steps = true.
Proof. vm_compute. reflexivity. Qed.

Lemma mbox_compiles : forallb compiles mbox_steps = true.
Proof. vm_compute. reflexivity. Qed.

Lemma msg_compiles : forallb compiles msg_steps = true.
Proof. vm_compute. reflexivity. Qed.

Lemma vcf_compiles : forallb compiles vcf_steps = true.
Proof. vm_compute. reflexivity. Qed.

Lemma pipeline_idem sts t : Forall step_ok sts -> pipeline_check sts = true ->
  apply_steps sts (apply_steps sts t) = apply_steps sts t.
Proof.
  intros Hok Hchk. apply steps_noop. intros st Hin.
  apply (pipeline_clean sts Hok Hchk t st Hin).
Qed.

(** ** [str.replace] splits its input at the leftmost occurrences *)

Lemma prefixb_spec u : forall s, prefixb u s = true <-> exists r, s = u ++ r.
Proof.
  induction u as [|a u IH]; intros s; simpl.
  - split; [eauto|reflexivity].
  - destruct s as [|b s'].
    + split; [discriminate|intros [r Hr]; discriminate].
    + rewrite andb_true_iff, N.eqb_eq, IH. split.
      * intros [-> [r ->]]. eauto.
      * intros [r Hr]. inversion Hr; subst. eauto.
Qed.

Lemma str_replace_fuel_spec old new (Hne : old <> []) : forall f s,
  (length s < f)%nat ->
  exists parts last,
    s = concat (map (fun u => u ++ old) parts) ++ last
    /\ fst (str_replacen_fuel f old new s) = concat (map (fun u => u ++ new) parts) ++ last
    /\ Forall (fun u => forall a b, u ++ old = a ++ old ++ b -> a = u) parts
    /\ (forall a b, last <> a ++ old ++ b).
Proof.
  assert (Hlo : (0 < length old)%nat) by (destruct old; [congruence|simpl; lia]).
  induction f as [|f IH]; intros s Hs; [lia|]. simpl.
  destruct (prefixb old s) eqn:P.
  - apply prefixb_spec in P as [s' ->].
    rewrite skipn_app, skipn_all, Nat.sub_diag. simpl.
    rewrite length_app in Hs.
    destruct (IH s' ltac:(lia)) as (parts & last & E1 & E2 & E3 & E4).
    destruct (str_replacen_fuel f old new s') as [o n]. simpl in E2 |- *.
    exists ([] :: parts), last. simpl. rewrite E1, E2, <- !app_assoc.
    split; [reflexivity|split; [reflexivity|split; [|exact E4]]].
    constructor; [|exact E3]. intros a b E. simpl in E.
    apply (f_equal (@length N)) in E. rewrite !length_app in E.
    destruct a; [reflexivity|simpl in E; lia].
  - destruct s as [|c s0].
    + exists [], []. split; [reflexivity|split; [reflexivity|split; [constructor|]]].
      intros a b E. apply (f_equal (@length N)) in E. rewrite !length_app in E.
      simpl in E. lia.
    + simpl in Hs. destruct (IH s0 ltac:(lia)) as (parts & last & E1 & E2 & E3 & E4).
      destruct (str_replacen_fuel f old new s0) as [o n]. simpl in E2 |- *.
      destruct parts as [|u parts'].
      * simpl in E1, E2. subst s0 o. exists [], (c :: last).
        split; [reflexivity|split; [reflexivity|split; [constructor|]]].
        intros [|x a] b E.
        -- simpl in E. assert (prefixb old (c :: last) = true)
             by (apply prefixb_spec; eauto). congruence.
        -- inversion E; subst. exact (E4 a b eq_refl).
      * inversion E3 as [|? ? Hu E3']; subst.
        exists ((c :: u) :: parts'), last. simpl.
        split; [reflexivity|split; [reflexivity|split; [|exact E4]]].
        constructor; [|exact E3'].
        intros [|x a] b E.
        -- simpl in E. exfalso.
           assert (prefixb old (c :: ((u ++ old) ++ concat (map (fun u => u ++ old) parts')) ++ last) = true).
           { apply prefixb_spec.
             exists (b ++ concat (map (fun u => u ++ old) parts') ++ last).
             rewrite <- app_assoc.
             change (c :: (u ++ old) ++ ?Y) with ((c :: u ++ old) ++ Y).
             rewrite E, <- !app_assoc. reflexivity. }
           simpl in P. congruence.
        -- inversion E; subst. f_equal. apply (Hu a b). assumption.
Qed.

Lemma str_replace_spec old new s : old <> [] ->
  exists parts last,
    s = concat (map (fun u => u ++ old) parts) ++ last
    /\ str_replace old new s = concat (map (fun u => u ++ new) parts) ++ last
    /\ Forall (fun u => forall a b, u ++ old = a ++ old ++ b -> a = u) parts
    /\ (forall a b, last <> a ++ old ++ b).
Proof.
  intro Hne. unfold str_replace, str_replacen.
  apply str_replace_fuel_spec; [exact Hne|lia].
Qed.

(** ** Instances of a pattern are matched, whatever their whitespace *)

Lemma first_char_fill ts ws c : first_char ts = Some c -> exists y, fill ts ws = c :: y.
Proof.
  revert ws; induction ts as [|t ts IH]; intros ws H; [discriminate|].
  destruct t; simpl in H; try discriminate.
  - inversion H; subst. eexists; reflexivity.
  - apply IH; exact H.
  - apply IH; exact H.
Qed.

Lemma ws_run_spaces u : ws_run u = true ->
  u <> [] /\ Forall (fun c => is_space c = true) u.
Proof.
  destruct u as [|c u]; [discriminate|]. intro H. split; [discriminate|].
  apply Forall_forall. intros x Hx. apply forallb_forall with (x := x) in H; auto.
Qed.

Lemma space_run_stop u c z : Forall (fun c => is_space c = true) u ->
  is_space c = false -> space_run (u ++ c :: z) = length u.
Proof.
  intros Hu Hc. induction Hu as [|x u Hx _ IH]; simpl; [rewrite Hc; reflexivity|].
  rewrite Hx, IH. reflexivity.
Qed.

Lemma fill_match ts : guarded ts = true -> forall ws r,
  forallb ws_run ws = true -> length ws = nspace ts ->
  exists segs, match_toks ts (fill ts ws ++ r) = Some (segs, r).
Proof.
  induction ts as [|t ts IH]; intros Hg ws r Hws Hlen.
  - exists []. reflexivity.
  - destruct t; simpl in Hg |- *.
    + destruct (IH Hg ws r Hws Hlen) as [segs E].
      rewrite N.eqb_refl, E. eauto.
    + destruct (first_char ts) as [c|] eqn:Fc; [|discriminate].
      apply andb_true_iff in Hg as [Hc Hg]. apply negb_true_iff in Hc.
      destruct ws as [|u ws']; [discriminate|]. simpl in Hws, Hlen.
      apply andb_true_iff in Hws as [Hu Hws].
      destruct (ws_run_spaces u Hu) as [Hne Hsp].
      destruct (IH Hg ws' r Hws ltac:(lia)) as [segs E].
      destruct (first_char_fill ts ws' c Fc) as [y Ey].
      rewrite <- app_assoc, Ey. change ((c :: y) ++ r) with (c :: (y ++ r)).
      rewrite space_run_stop by assumption.
      change (c :: (y ++ r)) with ((c :: y) ++ r). rewrite <- Ey.
      destruct (length u) as [|k] eqn:Lu; [destruct u; [congruence|discriminate]|].
      cbn [try_run]. rewrite <- Lu, skipn_app, skipn_all, Nat.sub_diag. simpl.
      rewrite E. eauto.
    + discriminate.
    + destruct (IH Hg ws r Hws Hlen) as [segs E]. rewrite E. eauto.
    + destruct (IH Hg ws r Hws Hlen) as [segs E]. rewrite E. eauto.
Qed.

Lemma const_rep p tmpl segs : refs tmpl = [] ->
  rep_of (tok p) tmpl segs = F_of (ReSub p tmpl).
Proof.
  intro Hr. unfold rep_of. cbn [F_of].
  apply (expand_ext _ _ (length tmpl)); [lia|]. intros k; rewrite Hr; contradiction.
Qed.

Lemma subn_nil P rep f : ~ inL P [] -> subn_fuel f P rep [] = ([], O).
Proof.
  intro Hn. apply subn_noop. intros a w b E Hw.
  destruct a; [|discriminate]. destruct w; [|discriminate]. exact (Hn Hw).
Qed.

Lemma nullable_false P : nullable [P] = false -> ~ inL P [].
Proof.
  intros Hn Hw. apply inL_nil_close in Hw. unfold nullable in Hn.
  simpl in Hn. rewrite Hw in Hn. discriminate.
Qed.

(** A rule with a constant template replaces an instance of its pattern
    by its fixed text, and goes on after it. *)
Lemma const_fill p tmpl ws f r : refs tmpl = [] -> guarded (tok p) = true ->
  forallb ws_run ws = true -> length ws = nspace (tok p) ->
  fst (subn_fuel (S f) (tok p) (rep_of (tok p) tmpl) (fill (tok p) ws ++ r))
  = F_of (ReSub p tmpl) ++ fst (subn_fuel f (tok p) (rep_of (tok p) tmpl) r).
Proof.
  intros Hr Hg Hws Hlen. destruct (fill_match _ Hg ws r Hws Hlen) as [segs E].
  cbn [subn_fuel]. rewrite E.
  destruct (subn_fuel f (tok p) (rep_of (tok p) tmpl) r) as [o n].
  simpl. rewrite const_rep by exact Hr. reflexivity.
Qed.

(** A pattern that starts with a non-whitespace character copies a
    whitespace run unchanged. *)
Lemma spaces_skip P rep :
  (forall d z, is_space d = true -> match_toks P (d :: z) = None) ->
  forall g f r, Forall (fun c => is_space c = true) g -> (length g <= f)%nat ->
  fst (subn_fuel f P rep (g ++ r)) = g ++ fst (subn_fuel (f - length g) P rep r).
Proof.
  intros HP g. induction g as [|d g IH]; intros f r Hg Hf.
  - simpl. rewrite Nat.sub_0_r. reflexivity.
  - inversion Hg as [|? ? Hd Hg']; subst. destruct f as [|f]; [simpl in Hf; lia|].
    cbn [subn_fuel app]. rewrite (HP d _ Hd).
    specialize (IH f r Hg' ltac:(simpl in Hf; lia)).
    destruct (subn_fuel f P rep (g ++ r)) as [o n]. simpl in IH |- *.
    rewrite IH. reflexivity.
Qed.

Lemma head_nonspace c ts : is_space c = false ->
  forall d z, is_space d = true -> match_toks (TChar c :: ts) (d :: z) = None.
Proof.
  intros Hc d z Hd. simpl. destruct (N.eqb_spec c d); [subst; congruence|reflexivity].
Qed.

(** Two instances separated by whitespace are both replaced. *)
Lemma const_twice p tmpl ws1 ws2 g c ts :
  refs tmpl = [] -> nullable [tok p] = false -> guarded (tok p) = true ->
  tok p = TChar c :: ts -> is_space c = false ->
  forallb ws_run ws1 = true -> length ws1 = nspace (tok p) ->
  forallb ws_run ws2 = true -> length ws2 = nspace (tok p) ->
  Forall (fun c => is_space c = true) g ->
  apply_step (ReSub p tmpl) (fill (tok p) ws1 ++ g ++ fill (tok p) ws2)
  = F_of (ReSub p tmpl) ++ g ++ F_of (ReSub p tmpl).
Proof.
  intros Hr Hn Hg Hp Hc H1 L1 H2 L2 Hsp.
  rewrite apply_step_sub. cbn [pat_of rep_step]. unfold sub, subn.
  rewrite const_fill by assumption. f_equal.
  assert (Hhead : forall d z, is_space d = true -> match_toks (tok p) (d :: z) = None)
    by (rewrite Hp; apply head_nonspace; exact Hc).
  destruct (first_char_fill (tok p) ws2 c ltac:(rewrite Hp; reflexivity)) as [y Ey].
  rewrite (spaces_skip _ _ Hhead) by (first [exact Hsp|rewrite ?length_app; lia]).
  f_equal.
  rewrite !length_app, Ey. simpl length.
  replace (length (fill (tok p) ws1) + (length g + S (length y)) - length g)%nat
    with (S (length (fill (tok p) ws1) + length y)) by lia.
  rewrite <- Ey, <- (app_nil_r (fill (tok p) ws2)), const_fill by assumption.
  rewrite subn_nil by (apply nullable_false; exact Hn). apply app_nil_r.
Qed.


(** ** The scan as leftmost, non-overlapping pieces *)

Lemma subn_scan P rep (Hn : ~ inL P []) : forall f s, (length s < f)%nat ->
  exists parts last, s = scan_input parts last
    /\ fst (subn_fuel f P rep s) = scan_output rep parts last
    /\ leftmost P parts last.
Proof.
  induction f as [|f IH]; intros s Hs; [lia|]. cbn [subn_fuel].
  destruct (match_toks P s) as [[segs r]|] eqn:M.
  - destruct (match_inL _ _ _ _ M) as [Hsr Hin].
    assert (Hr : (length r < f)%nat).
    { destruct (concat segs) as [|c w] eqn:Ec; [contradiction|].
      rewrite Hsr in Hs. simpl in Hs. rewrite length_app in Hs. lia. }
    destruct (IH r Hr) as (parts & last & E1 & E2 & E3).
    destruct (subn_fuel f P rep r) as [o n]. simpl in E2 |- *.
    exists (([], segs) :: parts), last. simpl.
    rewrite <- E1, <- Hsr, E2. split; [reflexivity|split; [reflexivity|]].
    split; [|split; [exact M|exact E3]].
    intros a w b _ Hlt. simpl in Hlt. lia.
  - destruct s as [|c s'].
    + exists [], []. split; [reflexivity|split; [reflexivity|]].
      intros a w b E Hw. destruct a; [|discriminate]. destruct w; [|discriminate].
      exact (Hn Hw).
    + simpl in Hs. destruct (IH s' ltac:(lia)) as (parts & last & E1 & E2 & E3).
      destruct (subn_fuel f P rep s') as [o n]. simpl in E2 |- *.
      destruct parts as [|[x segs] ps].
      * simpl in E1, E2, E3. subst s' o. exists [], (c :: last).
        split; [reflexivity|split; [reflexivity|]].
        intros [|d a] w b E Hw.
        -- exact (match_complete _ _ M w b E Hw).
        -- inversion E; subst. exact (E3 a w b eq_refl Hw).
      * simpl in E1, E2, E3. destruct E3 as (L1 & L2 & L3). subst s' o.
        exists ((c :: x, segs) :: ps), last. simpl.
        split; [reflexivity|split; [reflexivity|]].
        split; [|split; [exact L2|exact L3]].
        intros [|d a] w b E Hlt Hw.
        -- exact (match_complete _ _ M w b E Hw).
        -- inversion E; subst. simpl in Hlt.
           exact (L1 a w b ltac:(assumption) ltac:(lia) Hw).
Qed.

Lemma pipeline_nonnull sts : pipeline_check sts = true ->
  forall st, In st sts -> ~ inL (pat_of st) [].
Proof.
  induction sts as [|st0 sts IH]; intros H st Hin; [destruct Hin|].
  simpl in H. apply andb_true_iff in H as [Hov H].
  destruct Hin as [<-|Hin]; [|exact (IH H st Hin)].
  apply andb_true_iff in Hov as [Hself _].
  exact (overlap_nonnull _ _ Hself).
Qed.

Lemma all_steps_nonnull st : In st all_steps -> ~ inL (pat_of st) [].
Proof.
  unfold all_steps. intro Hin. apply in_app_or in Hin as [Hin|Hin].
  - exact (pipeline_nonnull _ mbox_check st Hin).
  - apply in_app_or in Hin as [Hin|Hin].
    + exact (pipeline_nonnull _ msg_check st Hin).
    + exact (pipeline_nonnull _ vcf_check st Hin).
Qed.

Lemma all_guarded p tmpl : In (ReSub p tmpl) all_steps -> guarded (tok p) = true.
Proof.
  intro Hin.
  assert (H : forallb (fun st => match st with
                                 | ReSub p _ => guarded (tok p)
                                 | Replace _ _ => true end) all_steps = true)
    by (vm_compute; reflexivity).
  exact (proj1 (forallb_forall _ _) H _ Hin).
Qed.


Lemma forallb_spaces g : forallb is_space g = true -> Forall (fun c => is_space c = true) g.
Proof. intro H. apply Forall_forall. intros x Hx. exact (proj1 (forallb_forall _ _) H x Hx). Qed.

(** ** Runs of statement lists *)

Lemma run_steps_full sts : forall t, forallb compiles sts = true ->
  run_steps sts t = (trace_of sts, inr (apply_steps sts t)).
Proof.
  induction sts as [|st sts IH]; intros t H; [reflexivity|].
  simpl in H. apply andb_true_iff in H as [Hc H].
  rewrite apply_steps_cons. simpl. unfold bind.
  destruct st as [p tmpl|old new]; simpl.
  - simpl in Hc. unfold tok.
    destruct (compile p) as [e|ts]; [discriminate|].
    rewrite IH by exact H. reflexivity.
  - rewrite IH by exact H. reflexivity.
Qed.

(** ** Routines with their files *)

Lemma fix_file_ok path sts msg fault w content :
  forallb compiles sts = true -> w path = Some content ->
  fix_file path sts msg fault w =
  let pre := [IoOpenRead path; IoRead path] ++ map IoRule (trace_of sts) in
  let c' := apply_steps sts content in
  match fault with
  | None => mk_io (pre ++ [IoOpenWrite path; IoWrite path c'; IoPrint msg])
                  (inr tt) (upd (upd w path []) path c')
  | Some k => mk_io (pre ++ [IoOpenWrite path; IoWrite path c'])
                    (inl WriteError) (upd (upd w path []) path (firstn k c'))
  end.
Proof.
  intros Hc Hw. unfold fix_file. rewrite Hw, run_steps_full by exact Hc. reflexivity.
Qed.

Lemma upd_same w path c : upd w path c path = Some c.
Proof. unfold upd. destruct (list_eq_dec N.eq_dec path path); congruence. Qed.

Lemma upd_other w path c p : p <> path -> upd w path c p = w p.
Proof. unfold upd. destruct (list_eq_dec N.eq_dec p path); congruence. Qed.

(** ** Occurrences and header matches *)

Lemma inL_app_inv A : forall B w, inL (A ++ B) w ->
  exists w1 w2, w = w1 ++ w2 /\ inL A w1 /\ inL B w2.
Proof.
  induction A as [|t A IH]; intros B w H.
  - exists [], w. split; [reflexivity|split; [constructor|exact H]].
  - simpl in H. destruct t; inversion H; subst;
      match goal with
      | Hi : inL (A ++ B) ?v |- _ =>
          destruct (IH B v Hi) as (w1 & w2 & -> & HA & HB)
      end.
    + exists (c :: w1), w2. split; [reflexivity|split; [constructor|]; assumption].
    + exists (u ++ w1), w2. rewrite app_assoc.
      split; [reflexivity|split; [constructor|]; assumption].
    + exists (u ++ w1), w2. rewrite app_assoc.
      split; [reflexivity|split; [constructor|]; assumption].
    + exists w1, w2. split; [reflexivity|split; [constructor|]; assumption].
    + exists w1, w2. split; [reflexivity|split; [constructor|]; assumption].
Qed.

Lemma subn_changed P rep : forall f s, fst (subn_fuel f P rep s) <> s ->
  exists a w b, s = a ++ w ++ b /\ inL P w.
Proof.
  induction f as [|f IH]; intros s H; simpl in H; [congruence|].
  destruct (match_toks P s) as [[segs r]|] eqn:M.
  - destruct (match_inL _ _ _ _ M) as [Hs Hin]. exists [], (concat segs), r. auto.
  - destruct s as [|c s']; [simpl in H; congruence|].
    destruct (subn_fuel f P rep s') as [o n] eqn:E. simpl in H.
    assert (Ho : fst (subn_fuel f P rep s') <> s') by (rewrite E; simpl; congruence).
    destruct (IH s' Ho) as (a & w & b & -> & Hw). exists (c :: a), w, b. auto.
Qed.

Lemma nspace_app A B : nspace (A ++ B) = (nspace A + nspace B)%nat.
Proof. induction A as [|t A IH]; [reflexivity|]. destruct t; simpl; rewrite ?IH; reflexivity. Qed.

Lemma fill_app_exact A : forall B ws ws', length ws = nspace A ->
  fill (A ++ B) (ws ++ ws') = fill A ws ++ fill B ws'.
Proof.
  induction A as [|t A IH]; intros B ws ws' H.
  - destruct ws; [reflexivity|discriminate].
  - destruct t; simpl in H |- *; try (rewrite IH by exact H; reflexivity).
    destruct ws as [|u ws]; [discriminate|]. simpl.
    rewrite IH by (simpl in H; lia). apply app_assoc.
Qed.

Lemma spaces_cancel c c' (Hc : is_space c = false) (Hc' : is_space c' = false) :
  forall a b x y, Forall (fun d => is_space d = true) a ->
  Forall (fun d => is_space d = true) b ->
  a ++ c :: x = b ++ c' :: y -> a = b /\ x = y.
Proof.
  induction a as [|d a IH]; intros b x y Ha Hb E; destruct b as [|e b]; simpl in E.
  - injection E as _ ->. auto.
  - inversion Hb; subst. injection E as <- _. congruence.
  - inversion Ha; subst. injection E as -> _. congruence.
  - inversion Ha; inversion Hb; subst. injection E as <- E.
    destruct (IH b x y) as [-> ->]; auto.
Qed.

(** A text ending in a non-space character, then a whitespace run, splits
    there in one way only. *)
Lemma last_nonspace_cancel x y u v c c' :
  is_space c = false -> is_space c' = false ->
  Forall (fun d => is_space d = true) u -> Forall (fun d => is_space d = true) v ->
  (x ++ [c]) ++ u = (y ++ [c']) ++ v -> x = y /\ c = c' /\ u = v.
Proof.
  intros Hc Hc' Hu Hv E. apply (f_equal (@rev N)) in E.
  rewrite !rev_app_distr in E. simpl in E.
  destruct (spaces_cancel c c' Hc Hc' _ _ _ _ (Forall_rev Hu) (Forall_rev Hv) E) as [E1 E2].
  assert (c = c').
  { rewrite E1 in E. apply app_inv_head in E. injection E; auto. }
  apply (f_equal (@rev N)) in E1, E2. rewrite !rev_involutive in E1, E2. auto.
Qed.

Lemma hdr_tail_segs_ws l2 : Forall2 seg_ok hdr_tail l2 ->
  exists u, l2 = [[]; u; []; [125]; []] /\ u <> []
    /\ Forall (fun d => is_space d = true) u.
Proof.
  unfold hdr_tail. intro H.
  repeat match goal with
         | H : Forall2 _ (_ :: _) _ |- _ => inversion H; subst; clear H
         | H : Forall2 _ [] _ |- _ => inversion H; subst; clear H
         | H : seg_ok (TChar _) _ |- _ => inversion H; subst; clear H
         | H : seg_ok TOpen _ |- _ => inversion H; subst; clear H
         | H : seg_ok TClose _ |- _ => inversion H; subst; clear H
         end.
  match goal with H : seg_ok TSpace ?u |- _ => inversion H; subst end.
  eexists; split; [reflexivity|split; assumption].
Qed.

(** What a header rule makes of one match: group 1, the matched text up to
    the last whitespace run, then the fixed rest of the template. *)
Lemma header_rep p tmpl A t s segs r :
  tok p = TOpen :: A ++ hdr_tail -> forallb plain A = true ->
  tmpl = 92 :: 49 :: t -> refs t = [2%nat] ->
  match_toks (tok p) s = Some (segs, r) ->
  exists l1 u, Forall2 seg_ok A l1 /\ Forall (fun d => is_space d = true) u
    /\ s = concat l1 ++ u ++ [125] ++ r
    /\ rep_of (tok p) tmpl segs = concat l1 ++ F_of (ReSub p tmpl)
    /\ u <> [] /\ grp 1 (tok p) segs = concat l1.
Proof.
  intros HP HA Ht Hr M. rewrite HP in M.
  destruct (match_sound _ _ _ _ M) as [Hs HF].
  inversion HF as [|? sg0 ? segs' Hs0 HF']; subst. inversion Hs0; subst.
  apply Forall2_app_inv_l in HF' as (l1 & l2 & H1 & H2 & ->).
  destruct (hdr_tail_segs_ws _ H2) as [u [-> [Hne Hu]]].
  assert (G1 : grp 1 (TOpen :: A ++ hdr_tail) ([] :: l1 ++ [[]; u; []; [125]; []])
               = concat l1).
  { apply grp_body_plain; auto. }
  exists l1, u. split; [exact H1|split; [exact Hu|split; [|split; [|split]]]].
  - simpl. rewrite concat_app. simpl. rewrite ?app_nil_r, <- ?app_assoc. reflexivity.
  - cbn [F_of]. unfold rep_of. rewrite HP, !expand_ref1.
    assert (G2 : grp 2 (TOpen :: A ++ hdr_tail) ([] :: l1 ++ [[]; u; []; [125]; []])
                 = [125]).
    { cbn [grp]. rewrite grp_skip_plain; auto. }
    match goal with |- context [grp 1 ?P ?S] =>
      replace (grp 1 P S) with (concat l1) by (symmetry; exact G1) end.
    simpl. f_equal.
    apply (expand_ext _ _ (length t)); [lia|]. rewrite Hr.
    intros k [<-|[]]. exact G2.
  - exact Hne.
  - rewrite HP. exact G1.
Qed.

(** ** Instances, occurrences and gaps *)



(** The matcher splits an instance the same way whatever follows it. *)
Lemma fill_match_uni ts : guarded ts = true -> forall ws,
  forallb ws_run ws = true -> length ws = nspace ts ->
  exists segs, forall r, match_toks ts (fill ts ws ++ r) = Some (segs, r).
Proof.
  induction ts as [|t ts IH]; intros Hg ws Hws Hlen.
  - exists []. reflexivity.
  - destruct t; simpl in Hg |- *.
    + destruct (IH Hg ws Hws Hlen) as [segs E]. exists ([c] :: segs). intro r.
      rewrite N.eqb_refl, E. reflexivity.
    + destruct (first_char ts) as [c|] eqn:Fc; [|discriminate].
      apply andb_true_iff in Hg as [Hc Hg]. apply negb_true_iff in Hc.
      destruct ws as [|u ws']; [discriminate|]. simpl in Hws, Hlen.
      apply andb_true_iff in Hws as [Hu Hws].
      destruct (ws_run_spaces u Hu) as [Hne Hsp].
      destruct (IH Hg ws' Hws ltac:(lia)) as [segs E].
      exists (u :: segs). intro r.
      destruct (first_char_fill ts ws' c Fc) as [y Ey].
      rewrite <- app_assoc, Ey. change ((c :: y) ++ r) with (c :: (y ++ r)).
      rewrite space_run_stop by assumption.
      change (c :: (y ++ r)) with ((c :: y) ++ r). rewrite <- Ey.
      destruct (length u) as [|k] eqn:Lu; [destruct u; [congruence|discriminate]|].
      cbn [try_run]. rewrite <- Lu, skipn_app, skipn_all, Nat.sub_diag. simpl.
      rewrite E, firstn_app, firstn_all, Nat.sub_diag, firstn_O, app_nil_r.
      reflexivity.
    + discriminate.
    + destruct (IH Hg ws Hws Hlen) as [segs E]. exists ([] :: segs). intro r.
      rewrite E. reflexivity.
    + destruct (IH Hg ws Hws Hlen) as [segs E]. exists ([] :: segs). intro r.
      rewrite E. reflexivity.
Qed.

Lemma subn_match_fst P rep f s segs r : match_toks P s = Some (segs, r) ->
  fst (subn_fuel (S f) P rep s) = rep segs ++ fst (subn_fuel f P rep r).
Proof.
  intro M. cbn [subn_fuel]. rewrite M.
  destruct (subn_fuel f P rep r) as [o n]. reflexivity.
Qed.

(** More fuel than characters changes nothing. *)
Lemma subn_fuel_enough P rep (Hn : ~ inL P []) : forall f1 f2 s,
  (length s < f1)%nat -> (length s < f2)%nat ->
  subn_fuel f1 P rep s = subn_fuel f2 P rep s.
Proof.
  induction f1 as [|f1 IH]; intros f2 s H1 H2; [lia|].
  destruct f2 as [|f2]; [lia|]. cbn [subn_fuel].
  destruct (match_toks P s) as [[segs r]|] eqn:M.
  - destruct (match_inL _ _ _ _ M) as [Hs Hin].
    destruct (concat segs) as [|c w] eqn:Ec; [contradiction|].
    rewrite Hs in H1, H2. simpl in H1, H2. rewrite length_app in H1, H2.
    rewrite (IH f2 r) by lia. reflexivity.
  - destruct s as [|c s']; [reflexivity|]. simpl in H1, H2.
    rewrite (IH f2 s') by lia. reflexivity.
Qed.

(** An instance at the front is replaced as it would be alone, and the
    scan goes on after it with the rest. *)
Lemma sub_inst P rep ws x : guarded P = true -> ~ inL P [] ->
  forallb ws_run ws = true -> length ws = nspace P ->
  sub P rep (fill P ws ++ x) = sub P rep (fill P ws) ++ sub P rep x.
Proof.
  intros Hg Hn Hws Hlen. destruct (fill_match_uni P Hg ws Hws Hlen) as [segs E].
  destruct (match_inL _ _ _ _ (E [])) as [Hs Hin].
  rewrite !app_nil_r in Hs.
  assert (Hne : fill P ws <> []) by (rewrite Hs; intro Hz; rewrite Hz in Hin; exact (Hn Hin)).
  assert (A : forall y, fst (subn_fuel (S (length (fill P ws ++ y))) P rep (fill P ws ++ y))
                        = rep segs ++ fst (subn_fuel (S (length y)) P rep y)).
  { intro y. rewrite (subn_match_fst _ _ _ _ _ _ (E y)). f_equal. f_equal.
    apply subn_fuel_enough; [exact Hn| |lia].
    rewrite length_app. destruct (fill P ws); [congruence|simpl; lia]. }
  unfold sub, subn. rewrite A.
  pose proof (A []) as A0. rewrite app_nil_r in A0. rewrite A0.
  rewrite subn_nil by exact Hn. simpl. rewrite app_nil_r. reflexivity.
Qed.

(** A text where the matcher finds no match is copied unchanged. *)
Lemma gap_skip P rep : forall g s f, no_match_in P g s = true -> (length g <= f)%nat ->
  fst (subn_fuel f P rep (g ++ s)) = g ++ fst (subn_fuel (f - length g) P rep s).
Proof.
  induction g as [|d g IH]; intros s f Hg Hf.
  - simpl. rewrite Nat.sub_0_r. reflexivity.
  - cbn [no_match_in app] in Hg |- *.
    destruct (match_toks P (d :: g ++ s)) eqn:M; [discriminate|].
    destruct f as [|f]; [simpl in Hf; lia|].
    cbn [subn_fuel]. rewrite M.
    specialize (IH s f Hg ltac:(simpl in Hf; lia)).
    destruct (subn_fuel f P rep (g ++ s)) as [o n]. simpl in IH |- *.
    rewrite IH. reflexivity.
Qed.

Lemma sub_gap P rep g s : ~ inL P [] -> no_match_in P g s = true ->
  sub P rep (g ++ s) = g ++ sub P rep s.
Proof.
  intros Hn Hg. unfold sub, subn. rewrite gap_skip by (auto; rewrite length_app; lia).
  f_equal. f_equal. apply subn_fuel_enough; [exact Hn| |lia].
  rewrite length_app. lia.
Qed.

Lemma first_nonspace_nomatch ts c : first_char ts = Some c -> is_space c = false ->
  forall d z, is_space d = true -> match_toks ts (d :: z) = None.
Proof.
  induction ts as [|t ts IH]; intros Hf Hc d z Hd; [discriminate|].
  destruct t; simpl in Hf |- *; try discriminate.
  - injection Hf as <-. destruct (N.eqb_spec c0 d); [subst; congruence|reflexivity].
  - rewrite (IH Hf Hc d z Hd). reflexivity.
  - rewrite (IH Hf Hc d z Hd). reflexivity.
Qed.

Lemma all_starts : forallb starts_nonspace all_steps = true.
Proof. vm_compute. reflexivity. Qed.

Lemma all_first p tmpl : In (ReSub p tmpl) all_steps ->
  forall d z, is_space d = true -> match_toks (tok p) (d :: z) = None.
Proof.
  intro Hin. pose proof (proj1 (forallb_forall _ _) all_starts _ Hin) as H.
  simpl in H. destruct (first_char (tok p)) as [c|] eqn:Fc; [|discriminate].
  apply negb_true_iff in H. exact (first_nonspace_nomatch _ c Fc H).
Qed.

Lemma spaces_no_match P (HP : forall d z, is_space d = true -> match_toks P (d :: z) = None) :
  forall g s, forallb is_space g = true -> no_match_in P g s = true.
Proof.
  induction g as [|d g IH]; intros s Hg; [reflexivity|].
  simpl in Hg. apply andb_true_iff in Hg as [Hd Hg].
  simpl. rewrite (HP d _ Hd). exact (IH s Hg).
Qed.



Lemma fix_file_no_re_error path sts msg fault w e : forallb compiles sts = true ->
  io_status (fix_file path sts msg fault w) <> inl (ReError e).
Proof.
  intro Hc. destruct (w path) as [content|] eqn:Hw.
  - rewrite (fix_file_ok path sts msg fault w content Hc Hw).
    destruct fault; cbn; discriminate.
  - unfold fix_file. rewrite Hw. cbn. discriminate.
Qed.


(** * The claims *)

(** C1: the text transformation of each routine is idempotent:
    [fix (fix t) = fix t] for [fix_mbox], [fix_msg] and [fix_vcf], where
    [fix] is the routine's statements run in order, which is what the
    routine's run computes. *)
Theorem C1_idempotent : forall t,
  (snd (run_steps mbox_steps t) = inr (fix_mbox_content t)
   /\ fix_mbox_content (fix_mbox_content t) = fix_mbox_content t)
  /\ (snd (run_steps msg_steps t) = inr (fix_msg_content t)
   /\ fix_msg_content (fix_msg_content t) = fix_msg_content t)
  /\ (snd (run_steps vcf_steps t) = inr (fix_vcf_content t)
   /\ fix_vcf_content (fix_vcf_content t) = fix_vcf_content t).
Proof.
  intro t. unfold fix_mbox_content, fix_msg_content, fix_vcf_content.
  split; [|split]; split.
  - apply run_steps_ok, mbox_compiles.
  - apply pipeline_idem; [exact mbox_steps_ok|exact mbox_check].
  - apply run_steps_ok, msg_compiles.
  - apply pipeline_idem; [exact msg_steps_ok|exact msg_check].
  - apply run_steps_ok, vcf_compiles.
  - apply pipeline_idem; [exact vcf_steps_ok|exact vcf_check].
Qed.

(** C3: the literal edit of [fix_mbox] on
    [addr.address.clone().unwrap_or_default()] turns that text into
    [addr.address.as_ref().map(|a| a.to_string()).unwrap_or_default()];
    on any text it cuts the input at the leftmost occurrences of the exact
    (case-sensitive) old text, replaces each of them by the new text, and
    copies every other character unchanged; no occurrence is left in the
    uncut tail. *)
Theorem C3_addr_edit :
  In (Replace mbox_addr_old2 mbox_addr_new2) mbox_steps
  /\ str_replace mbox_addr_old2 mbox_addr_new2 mbox_addr_old2 = mbox_addr_new2
  /\ forall s, exists parts last,
       s = concat (map (fun u => u ++ mbox_addr_old2) parts) ++ last
       /\ str_replace mbox_addr_old2 mbox_addr_new2 s
          = concat (map (fun u => u ++ mbox_addr_new2) parts) ++ last
       /\ Forall (fun u => forall a b,
                   u ++ mbox_addr_old2 = a ++ mbox_addr_old2 ++ b -> a = u) parts
       /\ (forall a b, last <> a ++ mbox_addr_old2 ++ b).
Proof.
  split; [simpl; tauto|]. split; [vm_compute; reflexivity|].
  intro s. apply str_replace_spec. vm_compute. discriminate.
Qed.

(** C4: a statement whose pattern occurs nowhere in a text returns the text
    unchanged with count 0, and a text in which no pattern of a routine
    occurs comes back identical from the routine. *)
Theorem C4_no_op :
  (forall st u, NoOcc (pat_of st) u -> apply_step st u = u /\ count_step st u = O)
  /\ (forall u, (forall st, In st mbox_steps -> NoOcc (pat_of st) u) ->
        fix_mbox_content u = u)
  /\ (forall u, (forall st, In st msg_steps -> NoOcc (pat_of st) u) ->
        fix_msg_content u = u)
  /\ (forall u, (forall st, In st vcf_steps -> NoOcc (pat_of st) u) ->
        fix_vcf_content u = u).
Proof.
  split; [|split; [|split]]; [|apply steps_noop..].
  intros st u H. rewrite apply_step_sub. unfold sub, subn.
  destruct st as [p tmpl|old new]; cbn [pat_of rep_step count_step] in *.
  - unfold subn. rewrite subn_noop by exact H. split; reflexivity.
  - unfold str_replacen. rewrite str_replacen_subn, subn_noop by exact H.
    split; reflexivity.
Qed.

(** C10: the output of [fix_mbox] contains neither legacy address text;
    both are rewritten to the same text. *)
Theorem C10_no_legacy_addr : forall t,
  ~ (exists a b, fix_mbox_content t = a ++ mbox_addr_old1 ++ b)
  /\ ~ (exists a b, fix_mbox_content t = a ++ mbox_addr_old2 ++ b)
  /\ mbox_addr_new = mbox_addr_new2.
Proof.
  intro t. unfold fix_mbox_content. split; [|split; [|reflexivity]];
    apply NoOcc_chars;
    [apply (pipeline_clean mbox_steps mbox_steps_ok mbox_check t
              (Replace mbox_addr_old1 mbox_addr_new))
    |apply (pipeline_clean mbox_steps mbox_steps_ok mbox_check t
              (Replace mbox_addr_old2 mbox_addr_new2))];
    simpl; tauto.
Qed.






(** C6: every statement of the three routines cuts its input into pieces:
    text copied unchanged, then a match, where each match is the one the
    matcher returns at the leftmost position where an occurrence of the
    pattern starts, scanning resumes after its end, and no occurrence is
    left in the uncut tail.  Every [re.sub] of the three routines splits
    an instance of its pattern the same way whatever follows it, and
    replaces it by the expansion of its template for that split.  Two
    instances separated by a text in which the matcher finds no match
    (every whitespace text is one) are both replaced, each as it would be
    alone, and the text after them is processed as it would be alone. *)
Theorem C6_leftmost_nonoverlap :
  Forall (fun st => forall s, exists parts last,
            s = scan_input parts last
            /\ apply_step st s = scan_output (rep_step st) parts last
            /\ leftmost (pat_of st) parts last) all_steps
  /\ (forall p tmpl ws,
        In (ReSub p tmpl) all_steps ->
        forallb ws_run ws = true -> length ws = nspace (tok p) ->
        exists segs, (forall r, match_toks (tok p) (fill (tok p) ws ++ r) = Some (segs, r))
          /\ apply_step (ReSub p tmpl) (fill (tok p) ws) = rep_of (tok p) tmpl segs)
  /\ (forall p tmpl ws1 g ws2 r,
        In (ReSub p tmpl) all_steps ->
        forallb ws_run ws1 = true -> length ws1 = nspace (tok p) ->
        forallb ws_run ws2 = true -> length ws2 = nspace (tok p) ->
        no_match_in (tok p) g (fill (tok p) ws2 ++ r) = true ->
        apply_step (ReSub p tmpl) (fill (tok p) ws1 ++ g ++ fill (tok p) ws2 ++ r)
        = apply_step (ReSub p tmpl) (fill (tok p) ws1) ++ g
          ++ apply_step (ReSub p tmpl) (fill (tok p) ws2)
          ++ apply_step (ReSub p tmpl) r)
  /\ (forall p tmpl g s, In (ReSub p tmpl) all_steps -> forallb is_space g = true ->
        no_match_in (tok p) g s = true).
Proof.
  split; [|split; [|split]].
  - apply Forall_forall. intros st Hin s. rewrite apply_step_sub. unfold sub, subn.
    apply subn_scan; [exact (all_steps_nonnull st Hin)|lia].
  - intros p tmpl ws Hin H1 L1.
    pose proof (all_steps_nonnull _ Hin) as Hn. cbn [pat_of] in Hn.
    destruct (fill_match_uni _ (all_guarded p tmpl Hin) ws H1 L1) as [segs E].
    exists segs. split; [exact E|].
    pose proof (E []) as E0. rewrite app_nil_r in E0.
    rewrite apply_step_sub. cbn [pat_of rep_step]. unfold sub, subn.
    rewrite (subn_match_fst _ _ _ _ _ _ E0), subn_nil by exact Hn.
    simpl. apply app_nil_r.
  - intros p tmpl ws1 g ws2 r Hin H1 L1 H2 L2 Hg.
    pose proof (all_steps_nonnull _ Hin) as Hn. cbn [pat_of] in Hn.
    pose proof (all_guarded p tmpl Hin) as Hgd.
    rewrite !apply_step_sub. cbn [pat_of rep_step].
    rewrite (sub_inst _ _ ws1) by assumption. f_equal.
    rewrite sub_gap by assumption. f_equal.
    apply sub_inst; assumption.
  - intros p tmpl g s Hin Hg. apply spaces_no_match; [exact (all_first p tmpl Hin)|exact Hg].
Qed.

Lemma C6_witness :
  apply_step (ReSub mbox_header_pat mbox_header_repl)
    (fill (tok mbox_header_pat) (repeat [32] 7) ++ q " x; "
     ++ fill (tok mbox_header_pat) (repeat [10; 32; 32] 7) ++ q " y")
  = apply_step (ReSub mbox_header_pat mbox_header_repl)
      (fill (tok mbox_header_pat) (repeat [32] 7)) ++ q " x; "
    ++ apply_step (ReSub mbox_header_pat mbox_header_repl)
         (fill (tok mbox_header_pat) (repeat [10; 32; 32] 7))
    ++ apply_step (ReSub mbox_header_pat mbox_header_repl) (q " y").
Proof.
  apply (proj1 (proj2 (proj2 C6_leftmost_nonoverlap))).
  - unfold all_steps, mbox_steps. simpl. left. reflexivity.
  - vm_compute. reflexivity.
  - vm_compute. reflexivity.
  - vm_compute. reflexivity.
  - vm_compute. reflexivity.
  - vm_compute. reflexivity.
Defined.

(** C7 (corrected): the script builds no rule ahead of use.  Each
    [re.sub] compiles its pattern when its statement runs, after the
    statements before it have been applied to the text: the events of a
    run of [fix_mbox] alternate between compiling a pattern and applying
    it.  Every pattern of the three routines compiles, so no run of them
    raises a pattern error, whatever the text. *)
Theorem C7_compile_when_run :
  (forall t, run_steps mbox_steps t = (trace_of mbox_steps, inr (fix_mbox_content t)))
  /\ (forall t, run_steps msg_steps t = (trace_of msg_steps, inr (fix_msg_content t)))
  /\ (forall t, run_steps vcf_steps t = (trace_of vcf_steps, inr (fix_vcf_content t)))
  /\ trace_of mbox_steps
     = [EvCompile mbox_header_pat; EvSub mbox_header_pat;
        EvCompile mbox_newline_pat; EvSub mbox_newline_pat;
        EvCompile mbox_body_pat; EvSub mbox_body_pat;
        EvCompile mbox_block_pat; EvSub mbox_block_pat;
        EvReplace mbox_addr_old1; EvReplace mbox_addr_old2]
  /\ (forall fault w e, io_status (fix_mbox fault w) <> inl (ReError e))
  /\ (forall fault w e, io_status (fix_msg fault w) <> inl (ReError e))
  /\ (forall fault w e, io_status (fix_vcf fault w) <> inl (ReError e)).
Proof.
  split; [|split; [|split; [|split; [|split; [|split]]]]].
  - intro t. exact (run_steps_full mbox_steps t mbox_compiles).
  - intro t. exact (run_steps_full msg_steps t msg_compiles).
  - intro t. exact (run_steps_full vcf_steps t vcf_compiles).
  - reflexivity.
  - intros fault w e. exact (fix_file_no_re_error _ _ _ fault w e mbox_compiles).
  - intros fault w e. exact (fix_file_no_re_error _ _ _ fault w e msg_compiles).
  - intros fault w e. exact (fix_file_no_re_error _ _ _ fault w e vcf_compiles).
Qed.

(** C7: on a file holding [textrun_two], [fix_mbox] applies its first
    [re.sub] to the text before it compiles the pattern of the second. *)
Lemma C7_counterexample :
  io_trace (fix_mbox None (fun _ => Some textrun_two))
  = [IoOpenRead mbox_path; IoRead mbox_path;
     IoRule (EvCompile mbox_header_pat); IoRule (EvSub mbox_header_pat);
     IoRule (EvCompile mbox_newline_pat); IoRule (EvSub mbox_newline_pat);
     IoRule (EvCompile mbox_body_pat); IoRule (EvSub mbox_body_pat);
     IoRule (EvCompile mbox_block_pat); IoRule (EvSub mbox_block_pat);
     IoRule (EvReplace mbox_addr_old1); IoRule (EvReplace mbox_addr_old2);
     IoOpenWrite mbox_path; IoWrite mbox_path textrun_two;
     IoPrint (q "Fixed mbox.rs")].
Proof. vm_compute. reflexivity. Qed.

(** C8: what a routine does (any statement list run by [fix_file], as
    [fix_mbox], [fix_msg] and [fix_vcf] are) depends on the world only
    through the contents of its own file: from two worlds that agree on that file it
    performs the same events, ends with the same status and leaves the
    same contents in the file; no other file is touched. *)
Theorem C8_depends_on_file_only : forall path sts msg fault w1 w2,
  w1 path = w2 path ->
  io_trace (fix_file path sts msg fault w1) = io_trace (fix_file path sts msg fault w2)
  /\ io_status (fix_file path sts msg fault w1)
     = io_status (fix_file path sts msg fault w2)
  /\ io_world (fix_file path sts msg fault w1) path
     = io_world (fix_file path sts msg fault w2) path
  /\ (forall p, p <> path -> io_world (fix_file path sts msg fault w1) p = w1 p).
Proof.
  intros path sts msg fault w1 w2 H. unfold fix_file. rewrite <- H.
  destruct (w1 path) as [content|] eqn:E1.
  - destruct (run_steps sts content) as [ev [e|c']].
    + simpl. rewrite E1, H. auto.
    + destruct fault as [k|]; simpl; rewrite !upd_same;
        (split; [reflexivity|split; [reflexivity|split; [reflexivity|]]]);
        intros p Hp; rewrite !upd_other by exact Hp; reflexivity.
  - simpl. rewrite E1, H. auto.
Qed.

Lemma C8_witness :
  io_trace (fix_file mbox_path mbox_steps (q "Fixed mbox.rs") None
              (fun _ => Some textrun_two))
  = io_trace (fix_file mbox_path mbox_steps (q "Fixed mbox.rs") None
                (fun p => if list_eq_dec N.eq_dec p mbox_path
                          then Some textrun_two else None))
  /\ io_status (fix_file mbox_path mbox_steps (q "Fixed mbox.rs") None
                  (fun _ => Some textrun_two))
     = io_status (fix_file mbox_path mbox_steps (q "Fixed mbox.rs") None
                    (fun p => if list_eq_dec N.eq_dec p mbox_path
                              then Some textrun_two else None))
  /\ io_world (fix_file mbox_path mbox_steps (q "Fixed mbox.rs") None
                 (fun _ => Some textrun_two)) mbox_path
     = io_world (fix_file mbox_path mbox_steps (q "Fixed mbox.rs") None
                   (fun p => if list_eq_dec N.eq_dec p mbox_path
                             then Some textrun_two else None)) mbox_path
  /\ (forall p, p <> mbox_path ->
      io_world (fix_file mbox_path mbox_steps (q "Fixed mbox.rs") None
                  (fun _ => Some textrun_two)) p = Some textrun_two).
Proof.
  apply C8_depends_on_file_only. vm_compute. reflexivity.
Defined.

(** C9: a routine whose patterns compile reads its file, applies all its
    statements, and only then opens the file for writing and writes the
    whole transformed text once; afterwards the file holds that text, or,
    if the write fails, a prefix of it (opening for writing truncates). *)
Theorem C9_write_after_transform : forall path sts msg fault w content,
  In (path, sts, msg) routines -> w path = Some content ->
  io_trace (fix_file path sts msg fault w)
  = [IoOpenRead path; IoRead path] ++ map IoRule (trace_of sts)
    ++ [IoOpenWrite path; IoWrite path (apply_steps sts content)]
    ++ match fault with None => [IoPrint msg] | Some _ => [] end
  /\ (exists k, io_world (fix_file path sts msg fault w) path
                = Some (firstn k (apply_steps sts content)))
  /\ (fault = None ->
      io_world (fix_file path sts msg fault w) path = Some (apply_steps sts content)).
Proof.
  intros path sts msg fault w content Hin Hw.
  assert (Hc : forallb compiles sts = true).
  { simpl in Hin. decompose [or] Hin; try contradiction;
      match goal with H : (_, _, _) = (_, _, _) |- _ => injection H as <- <- <- end;
      vm_compute; reflexivity. }
  rewrite (fix_file_ok path sts msg fault w content Hc Hw).
  destruct fault as [k|]; simpl; rewrite upd_same; try rewrite <- !app_assoc.
  - split; [reflexivity|split; [eauto|discriminate]].
  - split; [reflexivity|split; [|reflexivity]].
    exists (length (apply_steps sts content)). rewrite firstn_all. reflexivity.
Qed.

Lemma C9_witness :
  io_trace (fix_file mbox_path mbox_steps (q "Fixed mbox.rs") (Some 5%nat)
              (fun _ => Some textrun_two))
  = [IoOpenRead mbox_path; IoRead mbox_path] ++ map IoRule (trace_of mbox_steps)
    ++ [IoOpenWrite mbox_path; IoWrite mbox_path (apply_steps mbox_steps textrun_two)]
    ++ match Some 5%nat with None => [IoPrint (q "Fixed mbox.rs")] | Some _ => [] end
  /\ (exists k, io_world (fix_file mbox_path mbox_steps (q "Fixed mbox.rs") (Some 5%nat)
                            (fun _ => Some textrun_two)) mbox_path
                = Some (firstn k (apply_steps mbox_steps textrun_two)))
  /\ (Some 5%nat = None ->
      io_world (fix_file mbox_path mbox_steps (q "Fixed mbox.rs") (Some 5%nat)
                  (fun _ => Some textrun_two)) mbox_path
      = Some (apply_steps mbox_steps textrun_two)).
Proof.
  apply C9_write_after_transform.
  - simpl. left. reflexivity.
  - reflexivity.
Defined.

(** * Further properties of the script *)

(** ** The main block *)

Lemma paths_distinct :
  mbox_path <> msg_path /\ mbox_path <> vcf_path /\ msg_path <> vcf_path.
Proof. vm_compute. repeat split; discriminate. Qed.

Lemma fix_file_done path sts msg w c :
  forallb compiles sts = true -> w path = Some c ->
  io_status (fix_file path sts msg None w) = inr tt
  /\ io_world (fix_file path sts msg None w) = upd (upd w path []) path (apply_steps sts c).
Proof. intros Hc Hw. rewrite (fix_file_ok path sts msg None w c Hc Hw). auto. Qed.

Lemma upd_upd_at w path c c' p :
  upd (upd w path c) path c' p = if list_eq_dec N.eq_dec p path then Some c' else w p.
Proof. unfold upd. destruct (list_eq_dec N.eq_dec p path); reflexivity. Qed.

Lemma seq_io_ok r k :
  io_status r = inr tt ->
  seq_io r k = mk_io (io_trace r ++ io_trace (k (io_world r)))
                     (io_status (k (io_world r))) (io_world (k (io_world r))).
Proof. intro H. unfold seq_io. rewrite H. reflexivity. Qed.

Lemma main_done w cm cg cv :
  w mbox_path = Some cm -> w msg_path = Some cg -> w vcf_path = Some cv ->
  io_status (script_main None None None w) = inr tt
  /\ (forall p, io_world (script_main None None None w) p =
      if list_eq_dec N.eq_dec p vcf_path then Some (apply_steps vcf_steps cv)
      else if list_eq_dec N.eq_dec p msg_path then Some (apply_steps msg_steps cg)
      else if list_eq_dec N.eq_dec p mbox_path then Some (apply_steps mbox_steps cm)
      else w p)
  /\ exists evs, io_trace (script_main None None None w)
                 = evs ++ [IoPrint (q "All email parsers fixed!")].
Proof.
  intros Hm Hg Hv. destruct paths_distinct as (D1 & D2 & D3).
  unfold script_main, fix_mbox, fix_msg, fix_vcf.
  destruct (fix_file_done mbox_path mbox_steps (q "Fixed mbox.rs") w cm
              mbox_compiles Hm) as [S1 W1].
  rewrite (seq_io_ok _ _ S1), W1.
  set (w1 := upd (upd w mbox_path []) mbox_path (apply_steps mbox_steps cm)).
  assert (Hg1 : w1 msg_path = Some cg).
  { unfold w1. rewrite upd_upd_at.
    destruct (list_eq_dec N.eq_dec msg_path mbox_path); [congruence|exact Hg]. }
  destruct (fix_file_done msg_path msg_steps (q "Fixed msg.rs") w1 cg
              msg_compiles Hg1) as [S2 W2].
  rewrite (seq_io_ok _ _ S2), W2.
  set (w2 := upd (upd w1 msg_path []) msg_path (apply_steps msg_steps cg)).
  assert (Hv2 : w2 vcf_path = Some cv).
  { unfold w2, w1. rewrite !upd_upd_at.
    destruct (list_eq_dec N.eq_dec vcf_path msg_path); [congruence|].
    destruct (list_eq_dec N.eq_dec vcf_path mbox_path); [congruence|exact Hv]. }
  destruct (fix_file_done vcf_path vcf_steps (q "Fixed vcf.rs") w2 cv
              vcf_compiles Hv2) as [S3 W3].
  rewrite (seq_io_ok _ _ S3), W3. simpl. split; [reflexivity|split].
  - intro p. unfold w2, w1. rewrite !upd_upd_at. reflexivity.
  - rewrite !app_assoc. eexists. reflexivity.
Qed.

Lemma main_files w cm cg cv :
  w mbox_path = Some cm -> w msg_path = Some cg -> w vcf_path = Some cv ->
  io_status (script_main None None None w) = inr tt
  /\ io_world (script_main None None None w) mbox_path = Some (apply_steps mbox_steps cm)
  /\ io_world (script_main None None None w) msg_path = Some (apply_steps msg_steps cg)
  /\ io_world (script_main None None None w) vcf_path = Some (apply_steps vcf_steps cv)
  /\ (forall p, p <> mbox_path -> p <> msg_path -> p <> vcf_path ->
      io_world (script_main None None None w) p = w p)
  /\ exists evs, io_trace (script_main None None None w)
                 = evs ++ [IoPrint (q "All email parsers fixed!")].
Proof.
  intros Hm Hg Hv. destruct paths_distinct as (D1 & D2 & D3).
  destruct (main_done w cm cg cv Hm Hg Hv) as (S & W & T).
  split; [exact S|]. rewrite !W.
  repeat (destruct (list_eq_dec N.eq_dec _ _); try congruence).
  split; [reflexivity|split; [reflexivity|split; [reflexivity|split; [|exact T]]]].
  intros p H1 H2 H3. rewrite W.
  repeat (destruct (list_eq_dec N.eq_dec _ _); try congruence).
Qed.


Lemma fix_file_frame path sts msg fault w p :
  p <> path -> io_world (fix_file path sts msg fault w) p = w p.
Proof.
  intro Hp. unfold fix_file. destruct (w path) as [c|]; [|reflexivity].
  destruct (run_steps sts c) as [ev [e|c']]; [reflexivity|].
  destruct fault; simpl; rewrite !upd_other; auto.
Qed.

Lemma fix_file_prints path sts msg fault w m :
  In (IoPrint m) (io_trace (fix_file path sts msg fault w)) -> m = msg.
Proof.
  unfold fix_file. destruct (w path) as [c|]; simpl.
  - destruct (run_steps sts c) as [ev [e|c']]; [|destruct fault]; simpl;
      intro H; repeat rewrite in_app_iff in H; simpl in H;
      repeat match goal with
      | H : _ \/ _ |- _ => destruct H as [H|H]
      | H : In _ (map IoRule _) |- _ =>
          apply in_map_iff in H; destruct H as (? & H & _); discriminate H
      | H : _ = _ |- _ => injection H; auto
      | H : False |- _ => destruct H
      end; try discriminate.
  - intros [H|[]]; discriminate H.
Qed.

Lemma seq_io_fail r k e :
  io_status r = inl e -> seq_io r k = r.
Proof. intro H. unfold seq_io. rewrite H. reflexivity. Qed.

(** The main block writes no file other than [mbox.rs], [msg.rs] and
    [vcf.rs], whatever files exist and whichever writes fail. *)
Theorem main_frame : forall f1 f2 f3 w p,
  p <> mbox_path -> p <> msg_path -> p <> vcf_path ->
  io_world (script_main f1 f2 f3 w) p = w p.
Proof.
  intros f1 f2 f3 w p H1 H2 H3. unfold script_main, fix_mbox, fix_msg, fix_vcf.
  unfold seq_io at 1.
  destruct (io_status (fix_file mbox_path _ _ f1 w)); simpl;
    [apply fix_file_frame; exact H1|].
  unfold seq_io at 1.
  destruct (io_status (fix_file msg_path _ _ f2 _)); simpl;
    [rewrite fix_file_frame by exact H2; apply fix_file_frame; exact H1|].
  unfold seq_io at 1.
  destruct (io_status (fix_file vcf_path _ _ f3 _)); simpl;
    rewrite !fix_file_frame by assumption; reflexivity.
Qed.

(** The final message "All email parsers fixed!" is printed exactly when
    the script ends normally: a routine that raises (missing file, bad
    pattern, failed write) ends the script before it. *)
Theorem main_final_print : forall f1 f2 f3 w,
  In (IoPrint (q "All email parsers fixed!")) (io_trace (script_main f1 f2 f3 w))
  <-> io_status (script_main f1 f2 f3 w) = inr tt.
Proof.
  intros f1 f2 f3 w.
  unfold script_main, fix_mbox, fix_msg, fix_vcf.
  destruct (io_status (fix_file mbox_path mbox_steps (q "Fixed mbox.rs") f1 w))
    as [e|[]] eqn:S1.
  { rewrite (seq_io_fail _ _ _ S1), S1. split; [|discriminate]. intro H.
    apply fix_file_prints in H. vm_compute in H; discriminate H. }
  rewrite (seq_io_ok _ _ S1). cbn [io_trace io_status].
  set (w1 := io_world (fix_file mbox_path mbox_steps (q "Fixed mbox.rs") f1 w)).
  destruct (io_status (fix_file msg_path msg_steps (q "Fixed msg.rs") f2 w1))
    as [e|[]] eqn:S2.
  { rewrite (seq_io_fail _ _ _ S2), S2. split; [|discriminate]. intro H.
    apply in_app_iff in H as [H|H];
      apply fix_file_prints in H; vm_compute in H; discriminate H. }
  rewrite (seq_io_ok _ _ S2). cbn [io_trace io_status].
  set (w2 := io_world (fix_file msg_path msg_steps (q "Fixed msg.rs") f2 w1)).
  destruct (io_status (fix_file vcf_path vcf_steps (q "Fixed vcf.rs") f3 w2))
    as [e|[]] eqn:S3.
  - rewrite (seq_io_fail _ _ _ S3), S3. split; [|discriminate]. intro H.
    repeat (apply in_app_iff in H as [H|H]); apply fix_file_prints in H;
      vm_compute in H; discriminate H.
  - rewrite (seq_io_ok _ _ S3). cbn [io_trace io_status].
    split; [reflexivity|]. intros _. rewrite !in_app_iff. simpl. auto.
Qed.

Lemma fix_file_missing path sts msg fault w :
  w path = None -> fix_file path sts msg fault w = mk_io [IoOpenRead path] (inl FileNotFound) w.
Proof. intro H. unfold fix_file. rewrite H. reflexivity. Qed.

Lemma fix_file_fault path sts msg k w c :
  forallb compiles sts = true -> w path = Some c ->
  io_status (fix_file path sts msg (Some k) w) = inl WriteError
  /\ io_world (fix_file path sts msg (Some k) w)
     = upd (upd w path []) path (firstn k (apply_steps sts c)).
Proof. intros Hc Hw. rewrite (fix_file_ok path sts msg (Some k) w c Hc Hw). auto. Qed.

(** Without [mbox.rs] the script stops at its first [open]: nothing is
    written, nothing is printed, and [FileNotFoundError] ends it, whatever
    the other files are. *)
Theorem main_mbox_missing : forall f1 f2 f3 w,
  w mbox_path = None ->
  script_main f1 f2 f3 w = mk_io [IoOpenRead mbox_path] (inl FileNotFound) w.
Proof.
  intros f1 f2 f3 w H. unfold script_main, fix_mbox.
  rewrite (seq_io_fail _ _ FileNotFound); rewrite fix_file_missing by exact H; reflexivity.
Qed.


(** A failed write of [mbox.rs] ([f.write] raising after [open(..., 'w')]
    has truncated the file) ends the script with the error: [mbox.rs] then
    holds a prefix of its transformed text, and no other file is touched. *)
Theorem main_mbox_write_fault : forall k f2 f3 w cm,
  w mbox_path = Some cm ->
  io_status (script_main (Some k) f2 f3 w) = inl WriteError
  /\ io_world (script_main (Some k) f2 f3 w) mbox_path
     = Some (firstn k (fix_mbox_content cm))
  /\ (forall p, p <> mbox_path -> io_world (script_main (Some k) f2 f3 w) p = w p).
Proof.
  intros k f2 f3 w cm Hm. unfold script_main, fix_mbox. unfold fix_mbox_content, fix_msg_content, fix_vcf_content.
  destruct (fix_file_fault mbox_path mbox_steps (q "Fixed mbox.rs") k w cm
              mbox_compiles Hm) as [S1 W1].
  rewrite (seq_io_fail _ _ _ S1), S1, W1. split; [reflexivity|split].
  - rewrite upd_same. reflexivity.
  - intros p Hp. rewrite upd_upd_at.
    destruct (list_eq_dec N.eq_dec p mbox_path); [congruence|reflexivity].
Qed.

(** A failed write of [msg.rs] comes after [mbox.rs] has been fully
    rewritten, which is not undone: [mbox.rs] holds its transformed text,
    [msg.rs] a prefix of its own, and [vcf.rs] is untouched. *)
Theorem main_msg_write_fault : forall k f3 w cm cg,
  w mbox_path = Some cm -> w msg_path = Some cg ->
  io_status (script_main None (Some k) f3 w) = inl WriteError
  /\ io_world (script_main None (Some k) f3 w) mbox_path = Some (fix_mbox_content cm)
  /\ io_world (script_main None (Some k) f3 w) msg_path
     = Some (firstn k (fix_msg_content cg))
  /\ (forall p, p <> mbox_path -> p <> msg_path ->
      io_world (script_main None (Some k) f3 w) p = w p).
Proof.
  intros k f3 w cm cg Hm Hg. destruct paths_distinct as (D1 & D2 & D3). unfold fix_mbox_content, fix_msg_content, fix_vcf_content.
  unfold script_main, fix_mbox, fix_msg.
  destruct (fix_file_done mbox_path mbox_steps (q "Fixed mbox.rs") w cm
              mbox_compiles Hm) as [S1 W1].
  rewrite (seq_io_ok _ _ S1), W1. cbn [io_status io_world].
  set (w1 := upd (upd w mbox_path []) mbox_path (apply_steps mbox_steps cm)).
  assert (Hg1 : w1 msg_path = Some cg).
  { unfold w1. rewrite upd_upd_at.
    destruct (list_eq_dec N.eq_dec msg_path mbox_path); [congruence|exact Hg]. }
  destruct (fix_file_fault msg_path msg_steps (q "Fixed msg.rs") k w1 cg
              msg_compiles Hg1) as [S2 W2].
  rewrite (seq_io_fail _ _ _ S2), S2, W2. cbn [io_status io_world].
  split; [reflexivity|split; [|split]].
  - rewrite upd_upd_at. destruct (list_eq_dec N.eq_dec mbox_path msg_path);
      [congruence|]. unfold w1. rewrite upd_same. reflexivity.
  - rewrite upd_same. reflexivity.
  - intros p H1 H2. rewrite upd_upd_at.
    destruct (list_eq_dec N.eq_dec p msg_path); [congruence|].
    unfold w1. rewrite upd_upd_at.
    destruct (list_eq_dec N.eq_dec p mbox_path); [congruence|reflexivity].
Qed.

(** Running the whole script a second time, on the files the first run
    left, changes no file: the three fixed files are fixed points. *)
Theorem main_idempotent : forall w cm cg cv,
  w mbox_path = Some cm -> w msg_path = Some cg -> w vcf_path = Some cv ->
  io_status (script_main None None None (io_world (script_main None None None w))) = inr tt
  /\ forall p, io_world (script_main None None None (io_world (script_main None None None w))) p
             = io_world (script_main None None None w) p.
Proof.
  intros w cm cg cv Hm Hg Hv.
  destruct (main_files w cm cg cv Hm Hg Hv) as (_ & Em & Eg & Ev & Fr & _).
  destruct (main_files _ _ _ _ Em Eg Ev) as (S2 & E2m & E2g & E2v & Fr2 & _).
  split; [exact S2|]. intro p.
  destruct (list_eq_dec N.eq_dec p mbox_path) as [->|N1];
    [rewrite E2m, Em, (pipeline_idem _ _ mbox_steps_ok mbox_check); reflexivity|].
  destruct (list_eq_dec N.eq_dec p msg_path) as [->|N2];
    [rewrite E2g, Eg, (pipeline_idem _ _ msg_steps_ok msg_check); reflexivity|].
  destruct (list_eq_dec N.eq_dec p vcf_path) as [->|N3];
    [rewrite E2v, Ev, (pipeline_idem _ _ vcf_steps_ok vcf_check); reflexivity|].
  exact (Fr2 p N1 N2 N3).
Qed.

(** A statement whose pattern spells out [lit] changes only texts that
    contain [lit]. *)
Lemma step_change_needs A lit B p tmpl t :
  tok p = A ++ map TChar lit ++ B -> apply_step (ReSub p tmpl) t <> t ->
  exists a b, t = a ++ lit ++ b.
Proof.
  intros Hp H. rewrite apply_step_sub in H. unfold sub, subn in H. cbn [pat_of] in H.
  destruct (subn_changed _ _ _ _ H) as (a & w & b & -> & Hw). rewrite Hp in Hw.
  destruct (inL_app_inv _ _ _ Hw) as (w1 & w2 & -> & _ & H2).
  destruct (inL_app_inv _ _ _ H2) as (w3 & w4 & -> & H3 & _).
  apply inL_chars in H3. subst w3.
  exists (a ++ w1), (w4 ++ b). rewrite <- !app_assoc. reflexivity.
Qed.

Lemma subn_fuel_ext P rep1 rep2 : (forall segs, rep1 segs = rep2 segs) ->
  forall f s, subn_fuel f P rep1 s = subn_fuel f P rep2 s.
Proof.
  intros He. induction f as [|f IH]; intro s; simpl; [reflexivity|].
  destruct (match_toks P s) as [[segs r]|]; [rewrite IH, He; reflexivity|].
  destruct s; [reflexivity|]. rewrite IH. reflexivity.
Qed.

(** ** What the rules require of the text *)

(** The three header rules ([format_email_header] of [mbox.rs] and
    [msg.rs], [format_field] of [vcf.rs]) spell the [format!] string with
    a doubled closing brace, [format!("{}: {}}\n"], so each of them changes
    a text only if that exact text (with the backslash and [n] as two
    characters) occurs in it. *)
Theorem header_rules_need_brace_slip : forall p tmpl t,
  In (ReSub p tmpl) header_steps -> apply_step (ReSub p tmpl) t <> t ->
  exists a b, t = a ++ format_hdr_lit ++ b.
Proof.
  intros p tmpl t Hin Hch. simpl in Hin.
  destruct Hin as [E|[E|[E|[]]]]; injection E as <- <-.
  - apply (step_change_needs (firstn 86 (tok mbox_header_pat)) format_hdr_lit
             (skipn (86 + length format_hdr_lit) (tok mbox_header_pat))
             mbox_header_pat mbox_header_repl); [vm_compute; reflexivity|exact Hch].
  - apply (step_change_needs (firstn 86 (tok msg_header_pat)) format_hdr_lit
             (skipn (86 + length format_hdr_lit) (tok msg_header_pat))
             msg_header_pat msg_header_repl); [vm_compute; reflexivity|exact Hch].
  - apply (step_change_needs (firstn 91 (tok vcf_field_pat)) format_hdr_lit
             (skipn (91 + length format_hdr_lit) (tok vcf_field_pat))
             vcf_field_pat vcf_field_repl); [vm_compute; reflexivity|exact Hch].
Qed.

(** The vcf note rule's pattern spells [format!("{}}\n", note)] with a
    doubled closing brace, so the rule changes a text only if that exact
    text occurs in it. *)
Theorem vcf_note_rule_needs_brace_slip : forall t,
  apply_step (ReSub vcf_notebody_pat vcf_notebody_repl) t <> t ->
  exists a b, t = a ++ format_note_lit ++ b.
Proof.
  intros t Hch.
  apply (step_change_needs (firstn 31 (tok vcf_notebody_pat)) format_note_lit
           (skipn (31 + length format_note_lit) (tok vcf_notebody_pat))
           vcf_notebody_pat vcf_notebody_repl); [vm_compute; reflexivity|exact Hch].
Qed.

(** The vcf filter rule, a [re.sub] whose pattern escapes every
    metacharacter and whose template has no escape or group reference,
    acts exactly as [str.replace] of [.filter(|s| !s.is_empty())] by
    [.filter(|s: &&str| !s.is_empty())]. *)
Theorem vcf_filter_rule_is_replace : forall t,
  apply_step (ReSub vcf_filter_pat vcf_filter_repl) t
  = str_replace vcf_filter_old vcf_filter_repl t.
Proof.
  intro t.
  change (str_replace vcf_filter_old vcf_filter_repl t)
    with (apply_step (Replace vcf_filter_old vcf_filter_repl) t).
  rewrite !apply_step_sub.
  unfold sub, subn. cbn [pat_of rep_step].
  rewrite (subn_fuel_ext _ _ (fun _ => vcf_filter_repl)).
  - replace (tok vcf_filter_pat) with (map TChar vcf_filter_old)
      by (vm_compute; reflexivity). reflexivity.
  - intro segs. rewrite const_rep by (vm_compute; reflexivity).
    vm_compute. reflexivity.
Qed.

(** ** What the routines leave out of their output *)

(** [fix_msg]'s output never contains the import
    [use tracing::{debug, info, warn};], whatever its input. *)
Theorem fix_msg_no_warn_import : forall t,
  ~ exists a b, fix_msg_content t = a ++ msg_import_old ++ b.
Proof.
  intro t. apply NoOcc_chars. unfold fix_msg_content.
  apply (pipeline_clean msg_steps msg_steps_ok msg_check t
           (Replace msg_import_old msg_import_new)).
  simpl. tauto.
Qed.

(** [fix_vcf]'s output never contains [.filter(|s| !s.is_empty())],
    whatever its input. *)
Theorem fix_vcf_no_old_filter : forall t,
  ~ exists a b, fix_vcf_content t = a ++ vcf_filter_old ++ b.
Proof.
  intro t. apply NoOcc_chars. unfold fix_vcf_content.
  replace (map TChar vcf_filter_old) with (pat_of (ReSub vcf_filter_pat vcf_filter_repl))
    by (vm_compute; reflexivity).
  apply (pipeline_clean vcf_steps vcf_steps_ok vcf_check t).
  simpl. tauto.
Qed.

(** ** The header rules on an instance of the method *)

Lemma header_instance p tmpl A0 c t ws u :
  tok p = TOpen :: (A0 ++ [TChar c]) ++ hdr_tail -> is_space c = false ->
  forallb plain (A0 ++ [TChar c]) = true ->
  tmpl = 92 :: 49 :: t -> refs t = [2%nat] ->
  guarded (tok p) = true -> nullable [tok p] = false ->
  forallb ws_run ws = true -> length ws = nspace A0 -> ws_run u = true ->
  apply_step (ReSub p tmpl) (fill (A0 ++ [TChar c]) ws ++ u ++ [125])
  = fill (A0 ++ [TChar c]) ws ++ F_of (ReSub p tmpl).
Proof.
  intros HP Hc HA Ht Hr Hg Hn Hws Hlen Hu.
  assert (HlA : length ws = nspace (A0 ++ [TChar c]))
    by (rewrite nspace_app; simpl; lia).
  assert (Hfa : fill (A0 ++ [TChar c]) ws = fill A0 ws ++ [c]).
  { rewrite <- (app_nil_r ws) at 1. rewrite fill_app_exact by exact Hlen. reflexivity. }
  assert (Hf : fill (tok p) (ws ++ [u]) = fill (A0 ++ [TChar c]) ws ++ u ++ [125]).
  { rewrite HP. simpl fill at 1. rewrite fill_app_exact by exact HlA. reflexivity. }
  assert (Hm : exists segs, match_toks (tok p) (fill (tok p) (ws ++ [u]) ++ [])
                            = Some (segs, [])).
  { apply fill_match; [exact Hg| |].
    - rewrite forallb_app, Hws. simpl. rewrite Hu. reflexivity.
    - rewrite length_app, HP. simpl. rewrite nspace_app. simpl.
      rewrite HlA. lia. }
  destruct Hm as [segs M]. rewrite app_nil_r, Hf in M.
  destruct (header_rep p tmpl (A0 ++ [TChar c]) t _ segs [] HP HA Ht Hr M)
    as (l1 & u' & H1 & Hu' & Hs & Hrep & _ & _).
  apply Forall2_app_inv_l in H1 as (la & lc & Ha & Hcl & ->).
  inversion Hcl as [|? sc ? lc' Hsc Hnil]; subst. inversion Hnil; subst.
  inversion Hsc; subst.
  destruct (ws_run_spaces u Hu) as [_ HuS].
  assert (E : (fill A0 ws ++ [c]) ++ u = (concat la ++ [c]) ++ u').
  { rewrite <- Hfa. rewrite concat_app in Hs. cbn [concat] in Hs.
    rewrite ?app_nil_r in Hs.
    rewrite !app_assoc in Hs. apply app_inj_tail in Hs as [Hs _].
    rewrite <- !app_assoc in Hs |- *. exact Hs. }
  destruct (last_nonspace_cancel _ _ _ _ _ _ Hc Hc HuS Hu' E) as (Ea & _ & _).
  rewrite apply_step_sub. unfold sub, subn. cbn [pat_of rep_step subn_fuel].
  rewrite M.
  rewrite subn_nil by (apply nullable_false; exact Hn).
  cbn [fst]. rewrite Hrep, concat_app. simpl. rewrite app_nil_r, Hfa, Ea.
  reflexivity.
Qed.

(** A header rule applied to an instance of its pattern keeps the text of
    group 1, in whatever layout it has, drops the whitespace before the
    closing brace and puts the fixed lines [bounds: None,] and
    [char_positions: None,] before that brace. *)
Theorem header_rule_instance : forall p tmpl ws u,
  In (ReSub p tmpl) header_steps -> forallb ws_run ws = true ->
  length ws = 6%nat -> ws_run u = true ->
  apply_step (ReSub p tmpl) (fill (hdr_body (tok p)) ws ++ u ++ q "}")
  = fill (hdr_body (tok p)) ws ++ F_of (ReSub p tmpl).
Proof.
  intros p tmpl ws u Hin Hws L Hu. simpl in Hin.
  destruct Hin as [E|[E|[E|[]]]]; injection E as <- <-;
  match goal with |- apply_step (ReSub ?p0 ?tm) _ = _ =>
    replace (hdr_body (tok p0)) with (removelast (hdr_body (tok p0)) ++ [TChar 44])
      by (vm_compute; reflexivity);
    apply (header_instance p0 tm (removelast (hdr_body (tok p0))) 44 (skipn 2 tm));
    first [ assumption | rewrite L; vm_compute; reflexivity | vm_compute; reflexivity ]
  end.
Qed.

(** * Instances of the properties above *)


Lemma main_frame_witness :
  io_world (script_main (Some 2%nat) None None (fun _ => Some textrun_two)) (q "other.rs")
  = Some textrun_two.
Proof.
  apply (main_frame (Some 2%nat) None None (fun _ => Some textrun_two) (q "other.rs"));
    vm_compute; discriminate.
Defined.

Lemma main_mbox_missing_witness :
  script_main None None None (fun _ => None)
  = mk_io [IoOpenRead mbox_path] (inl FileNotFound) (fun _ => None).
Proof. apply (main_mbox_missing None None None (fun _ => None)). reflexivity. Defined.


Lemma main_mbox_write_fault_witness :
  io_status (script_main (Some 3%nat) None None (fun _ => Some textrun_two)) = inl WriteError
  /\ io_world (script_main (Some 3%nat) None None (fun _ => Some textrun_two)) mbox_path
     = Some (firstn 3 (fix_mbox_content textrun_two))
  /\ (forall p, p <> mbox_path ->
      io_world (script_main (Some 3%nat) None None (fun _ => Some textrun_two)) p
      = Some textrun_two).
Proof.
  apply (main_mbox_write_fault 3 None None (fun _ => Some textrun_two) textrun_two).
  reflexivity.
Defined.

Lemma main_msg_write_fault_witness :
  io_status (script_main None (Some 3%nat) None (fun _ => Some textrun_two)) = inl WriteError
  /\ io_world (script_main None (Some 3%nat) None (fun _ => Some textrun_two)) mbox_path
     = Some (fix_mbox_content textrun_two)
  /\ io_world (script_main None (Some 3%nat) None (fun _ => Some textrun_two)) msg_path
     = Some (firstn 3 (fix_msg_content textrun_two))
  /\ (forall p, p <> mbox_path -> p <> msg_path ->
      io_world (script_main None (Some 3%nat) None (fun _ => Some textrun_two)) p
      = Some textrun_two).
Proof.
  apply (main_msg_write_fault 3 None (fun _ => Some textrun_two) textrun_two textrun_two);
    reflexivity.
Defined.

Lemma main_idempotent_witness :
  io_status (script_main None None None
    (io_world (script_main None None None (fun _ => Some textrun_two)))) = inr tt
  /\ forall p, io_world (script_main None None None
                 (io_world (script_main None None None (fun _ => Some textrun_two)))) p
             = io_world (script_main None None None (fun _ => Some textrun_two)) p.
Proof.
  apply (main_idempotent (fun _ => Some textrun_two) textrun_two textrun_two textrun_two);
    reflexivity.
Defined.

Lemma header_rules_need_brace_slip_witness :
  exists a b, fill (tok mbox_header_pat) (repeat [32] 7) = a ++ format_hdr_lit ++ b.
Proof.
  apply (header_rules_need_brace_slip mbox_header_pat mbox_header_repl).
  - simpl. left. reflexivity.
  - vm_compute. discriminate.
Defined.

Lemma vcf_note_rule_needs_brace_slip_witness :
  exists a b, fill (tok vcf_notebody_pat) (repeat [32] (nspace (tok vcf_notebody_pat)))
              = a ++ format_note_lit ++ b.
Proof.
  apply vcf_note_rule_needs_brace_slip. vm_compute. discriminate.
Defined.

Lemma header_rule_instance_witness :
  apply_step (ReSub mbox_header_pat mbox_header_repl)
    (fill (hdr_body (tok mbox_header_pat)) (repeat [32] 6) ++ [10] ++ q "}")
  = fill (hdr_body (tok mbox_header_pat)) (repeat [32] 6)
    ++ F_of (ReSub mbox_header_pat mbox_header_repl).
Proof.
  apply header_rule_instance.
  - simpl. left. reflexivity.
  - vm_compute. reflexivity.
  - vm_compute. reflexivity.
  - vm_compute. reflexivity.
Defined.

Lemma main_final_print_witness :
  In (IoPrint (q "All email parsers fixed!"))
     (io_trace (script_main None None None (fun _ => Some textrun_two)))
  <-> io_status (script_main None None None (fun _ => Some textrun_two)) = inr tt.
Proof. exact (main_final_print None None None (fun _ => Some textrun_two)). Defined.

Lemma fix_msg_no_warn_import_witness :
  ~ exists a b, fix_msg_content msg_import_old = a ++ msg_import_old ++ b.
Proof. exact (fix_msg_no_warn_import msg_import_old). Defined.

Lemma fix_vcf_no_old_filter_witness :
  ~ exists a b, fix_vcf_content vcf_filter_old = a ++ vcf_filter_old ++ b.
Proof. exact (fix_vcf_no_old_filter vcf_filter_old). Defined.
